(** * Verification of the AmazonHelp tweet pre-processing toolbox

    Shallow embedding of [src/dataprep/tools_amazon.py].

    - A Python [str] is a sequence of Unicode code points: [list N].
    - [str.replace] and [re.sub] scan left to right and replace every
      non-overlapping match; both are instances of [sub_all].
    - The regular expressions of the source are terms of [regex], run by a
      backtracking matcher with Python's preference order.
    - A [dict] is a [gmap]; a DataFrame is the list of its rows.
    - Python floats are IEEE binary64 numbers ([SpecFloat], precision 53).
    - A raised exception is the [Raised] outcome. *)

From Stdlib Require Import ZArith NArith QArith Qround Ascii String List Permutation.
From Stdlib Require Import Floats.SpecFloat.
From stdpp Require Import base option list gmap.

Local Open Scope N_scope.

(** ** Strings *)

Abbreviation codepoint := N (only parsing).
Abbreviation str := (list N) (only parsing).

(** An ASCII literal of the source as a sequence of code points. *)
Definition py (s : string) : str :=
  map N_of_ascii (list_ascii_of_string s).

(** [a.startswith(b)], as used by the matchers of [str.replace]. *)
Fixpoint starts_with (old s : str) : bool :=
  match old, s with
  | [], _ => true
  | _ :: _, [] => false
  | a :: old', c :: s' => (c =? a) && starts_with old' s'
  end.

(** ** Replacing every match, left to right

    [m s] is the length of the match that starts at the head of [s], if
    there is one.  A match of [S n] characters emits the replacement and
    skips the [n] characters that follow its first one.  None of the
    patterns of this program matches the empty string, so an empty match
    is treated as no match. *)
Fixpoint sub_from (m : str -> option nat) (repl : str) (skip : nat) (s : str) : str :=
  match s with
  | [] => []
  | c :: r =>
      match skip with
      | S k => sub_from m repl k r
      | O =>
          match m s with
          | Some (S n) => repl ++ sub_from m repl n r
          | _ => c :: sub_from m repl 0 r
          end
      end
  end.

Definition sub_all (m : str -> option nat) (repl s : str) : str :=
  sub_from m repl 0 s.

(** [s.replace(old, new)] for a non-empty [old]. *)
Definition lit_match (old : str) (s : str) : option nat :=
  if starts_with old s then Some (length old) else None.

Definition str_replace (old new s : str) : str :=
  sub_all (lit_match old) new s.

(** ** Regular expressions

    The fragment of Python's [re] syntax that the source uses.  Repetition
    is only ever applied to a character class. *)
Inductive regex : Type :=
| Chr (c : codepoint)               (* a literal character *)
| Cls (p : codepoint -> bool)       (* a character class *)
| Cat (r1 r2 : regex)               (* r1 r2 *)
| Alt (r1 r2 : regex)               (* r1 | r2 *)
| Opt (r : regex)                   (* r? *)
| Star (p : codepoint -> bool)      (* greedy repetition of a class, zero or more *)
| Plus (p : codepoint -> bool)      (* greedy repetition of a class, one or more *)
| Eos.                              (* $ *)

(** Greedy repetition of a class with backtracking: take as many
    characters as possible, give them back one at a time while the rest of
    the pattern fails. *)
Fixpoint star_class (p : codepoint -> bool) (s : str) (k : str -> option str) : option str :=
  match s with
  | [] => k []
  | c :: r =>
      if p c then
        match star_class p r k with
        | Some rest => Some rest
        | None => k s
        end
      else k s
  end.

(** [rmatch r s k]: match [r] at the head of [s], then the continuation
    [k] on what is left; the left alternative and the longer repetition are
    tried first.  [$] holds at the end of the string and just before a
    final newline. *)
Fixpoint rmatch (r : regex) (s : str) (k : str -> option str) : option str :=
  match r with
  | Chr c =>
      match s with
      | x :: s' => if x =? c then k s' else None
      | [] => None
      end
  | Cls p =>
      match s with
      | x :: s' => if p x then k s' else None
      | [] => None
      end
  | Cat r1 r2 => rmatch r1 s (fun s' => rmatch r2 s' k)
  | Alt r1 r2 =>
      match rmatch r1 s k with
      | Some rest => Some rest
      | None => rmatch r2 s k
      end
  | Opt r1 =>
      match rmatch r1 s k with
      | Some rest => Some rest
      | None => k s
      end
  | Star p => star_class p s k
  | Plus p =>
      match s with
      | x :: s' => if p x then star_class p s' k else None
      | [] => None
      end
  | Eos =>
      match s with
      | [] => k s
      | [c] => if c =? 10 then k s else None
      | _ => None
      end
  end.

(** Length of the match of [r] at the head of [s]. *)
Definition match_len (r : regex) (s : str) : option nat :=
  match rmatch r s Some with
  | Some rest => Some (length s - length rest)%nat
  | None => None
  end.

(** [re.sub(r, repl, s)]. *)
Definition re_sub (r : regex) (repl s : str) : str :=
  sub_all (match_len r) repl s.

(** A literal word as a pattern; [lit_then w r] is [w] followed by [r]. *)
Fixpoint lit_then (w : str) (r : regex) : regex :=
  match w with
  | [] => r
  | c :: w' => Cat (Chr c) (lit_then w' r)
  end.

(** ** Whitespace

    [str.strip()] without argument and the class [\s] use CPython's
    [Py_UNICODE_ISSPACE]: the characters whose bidirectional type is WS, B
    or S, or whose category is Zs. *)
Definition is_space (c : codepoint) : bool :=
  ((9 <=? c) && (c <=? 13)) || ((28 <=? c) && (c <=? 32))
  || (c =? 0x85) || (c =? 0xA0) || (c =? 0x1680)
  || ((0x2000 <=? c) && (c <=? 0x200A))
  || (c =? 0x2028) || (c =? 0x2029) || (c =? 0x202F) || (c =? 0x205F)
  || (c =? 0x3000).

Definition non_space (c : codepoint) : bool := negb (is_space c).

Fixpoint lstrip (s : str) : str :=
  match s with
  | [] => []
  | c :: r => if is_space c then lstrip r else s
  end.

Definition rstrip (s : str) : str := rev (lstrip (rev s)).

(** [s.strip()] *)
Definition strip (s : str) : str := rstrip (lstrip s).

(** [re.sub(' +', ' ', s)]: runs of U+0020 become one. *)
Definition is_blank (c : codepoint) : bool := c =? 32.
Definition spaces_re : regex := Plus is_blank.
Definition collapse_spaces (s : str) : str := re_sub spaces_re [32] s.

(** ** generate_alphabet *)

(** [string.printable] of Python's standard library: digits, lower-case
    and upper-case letters, punctuation, whitespace. *)
Definition string_printable : str :=
  py "0123456789abcdefghijklmnopqrstuvwxyzABCDEFGHIJKLMNOPQRSTUVWXYZ!"
  ++ [34] ++ py "#$%&'()*+,-./:;<=>?@[\]^_`{|}~ " ++ [9; 10; 13; 11; 12].

Definition generate_alphabet : str :=
  let alphabet := string_printable in
  let alphabet := str_replace (py "ABCDEFGHIJKLMNOPQRSTUVWXYZ") [] alphabet in
  let alphabet := str_replace (py "[\]^_`{|}~") [] alphabet in
  let alphabet := str_replace [9; 10; 13; 11; 12] [] alphabet in
  let alphabet := str_replace (py ";<=>") [] alphabet in
  let alphabet := str_replace (py "*+") [] alphabet in
  alphabet.

(** ** Unicode tables and the language detector

    [isalnum] is [str.isalnum] on one character and [lower] is
    [str.lower]; both read the Unicode database of the interpreter. *)
Class Unicode : Type := {
  isalnum : codepoint -> bool;
  lower : str -> str
}.

(** Exceptions that can leave a function of this module on the tables and
    dictionaries modelled here. *)
Inductive exn : Type :=
| LangDetectException
| ValueError
| OverflowError.

Inductive outcome (A : Type) : Type :=
| Returned (a : A)
| Raised (e : exn).
Arguments Returned {A} a.
Arguments Raised {A} e.

#[export] Instance outcome_ret : MRet outcome := fun A a => Returned a.
#[export] Instance outcome_bind : MBind outcome := fun A B f x =>
  match x with
  | Returned a => f a
  | Raised e => Raised e
  end.

(** A list comprehension whose body may raise. *)
Fixpoint comprehension {A B : Type} (f : A -> outcome B) (l : list A) : outcome (list B) :=
  match l with
  | [] => Returned []
  | a :: l' =>
      b ← f a;
      bs ← comprehension f l';
      Returned (b :: bs)
  end.

(** [langdetect.detect]: a language tag, or [LangDetectException]. *)
Class Detector : Type := {
  detect : str -> outcome str
}.

(** ** check_language *)

Definition remove_for_langdetect : list str :=
  [ py "amazon fire tv stick"; py "fire tv stick"; py "amazonfiretvstick";
    py "amazonmusicunlimited"; py "amazon kindle unlimited";
    py "amazon echo dot"; py "prime music" ].

(** [element in tweet] for two strings. *)
Fixpoint contains (element tweet : str) : bool :=
  starts_with element tweet
  || match tweet with
     | [] => false
     | _ :: r => contains element r
     end.

(** The text handed to the detector. *)
Definition langdetect_input (tweet : str) : str :=
  if existsb (fun element => contains element tweet) remove_for_langdetect
  then fold_left (fun tweet element => str_replace element [] tweet)
                 remove_for_langdetect tweet
  else tweet.

Definition check_language `{Detector} (tweet : str) : outcome str :=
  let tweet := langdetect_input tweet in
  match detect tweet with
  | Returned tag => Returned tag
  | Raised _ => Returned (py "en")
  end.

(** ** clean_text *)

Definition is_digit (c : codepoint) : bool := (48 <=? c) && (c <=? 57).

(** The class "\w" of a [str] pattern. *)
Definition is_word `{Unicode} (c : codepoint) : bool := isalnum c || (c =? 95).

(** The pattern "@[0-9]+" *)
Definition reference_re : regex := Cat (Chr 64) (Plus is_digit).

(** The signature pattern: a caret, then "\w" zero or more times (a group),
    then "$". *)
Definition signature_re `{Unicode} : regex := Cat (Cat (Chr 94) (Star is_word)) Eos.

(** The pattern "\([0-9]/[0-9]\)" *)
Definition part_re : regex :=
  Cat (Chr 40) (Cat (Cls is_digit) (Cat (Chr 47) (Cat (Cls is_digit) (Chr 41)))).

(** The pattern "https?://\S+|www\.\S+" *)
Definition url_re : regex :=
  Alt (lit_then (py "http") (Cat (Opt (Chr 115)) (lit_then (py "://") (Plus non_space))))
      (lit_then (py "www.") (Plus non_space)).

(** The anonymization character that stands for a URL. *)
Definition url_mark : codepoint := 0xA7.

(** The first steps of [clean_text]: single characters are rewritten. *)
Definition normalize_characters (tweet : str) : str :=
  let tweet := str_replace [9] [32] tweet in
  let tweet := str_replace [10] [32] tweet in
  let tweet := str_replace [13] [32] tweet in
  let tweet := str_replace [11] [32] tweet in
  let tweet := str_replace [12] [32] tweet in
  let tweet := str_replace [0x200B] [32] tweet in
  let tweet := str_replace [0x200D] [32] tweet in
  let tweet := str_replace (py ";") (py ",") tweet in
  let tweet := str_replace [0x2018] (py "'") tweet in
  let tweet := str_replace [0x2018] (py "'") tweet in
  let tweet := str_replace [0xB4] (py "'") tweet in
  let tweet := str_replace (py "`") (py "'") tweet in
  let tweet := str_replace [0x2019] (py "'") tweet in
  let tweet := str_replace [0x201D] (py "'") tweet in
  let tweet := str_replace [0x201C] (py "'") tweet in
  tweet.

(** Everything [clean_text] does before it turns to URLs and spaces. *)
Definition clean_removals `{Unicode} (tweet : str) : str :=
  let tweet := normalize_characters tweet in

  let tweet := str_replace (py "\{") (py "\(") tweet in
  let tweet := str_replace (py "\}") (py "\)") tweet in
  let tweet := str_replace (py "\[") (py "\(") tweet in
  let tweet := str_replace (py "\]") (py "\)") tweet in

  let tweet := str_replace (py "&amp;") (py "&") tweet in
  let tweet := str_replace (py "@amazonhelp") [] tweet in

  let tweet := re_sub reference_re [] tweet in
  let tweet := re_sub signature_re [] tweet in
  let tweet := str_replace [0x200D; 0x2642; 0xFE0F] [] tweet in
  let tweet := str_replace [0x200D; 0x2640; 0xFE0F] [] tweet in

  let tweet := re_sub part_re [] tweet in
  tweet.

Definition clean_text `{Unicode} (tweet : str) : str :=
  let tweet := clean_removals tweet in
  let tweet := re_sub url_re [url_mark] tweet in
  let tweet := collapse_spaces tweet in
  let tweet := strip tweet in
  tweet.

(** ** process_x_text, process_y_text *)

(** The character that stands for an out-of-alphabet character of a
    question. *)
Definition unknown_mark : codepoint := 0xFC.

(** [char in alphabet] *)
Definition char_in (char : codepoint) (alphabet : str) : bool :=
  existsb (N.eqb char) alphabet.

Definition process_x_text (tweet alphabet : str) : str :=
  let tweet := map (fun char => if char_in char alphabet then char else unknown_mark) tweet in
  let tweet := collapse_spaces tweet in
  let tweet := strip tweet in
  tweet.

Definition process_y_text (tweet alphabet : str) : str :=
  let tweet := map (fun char => if char_in char alphabet then char else 32) tweet in
  let tweet := collapse_spaces tweet in
  let tweet := strip tweet in
  tweet.

(** ** organize_QA_dataframe *)

(** A row of the raw table [twcs.csv]; a missing
    [in_response_to_tweet_id] (NaN) is [None].  The text of a row is a
    [str]: [read_csv] loads an empty field as NaN, and on a NaN text
    ['element in tweet'] of [check_language] raises [TypeError]; a table
    with such a row is outside this type. *)
Record Message : Type := {
  tweet_id : Z;
  author_id : str;
  inbound : bool;
  in_response_to_tweet_id : option Z;
  text : str
}.

(** [s.endswith(suffix)] *)
Definition ends_with (suffix s : str) : bool :=
  starts_with (rev suffix) (rev s).

(** [left.merge(right, left_on='tweet_id',
    right_on='in_response_to_tweet_id')]: an inner join that keeps the
    order of the left rows.  A joined row is the pair of the left row
    (columns [.._x]) and the right row (columns [.._y]); a right row
    without [in_response_to_tweet_id] (NaN) matches no [tweet_id].  The
    keys are compared as integers; pandas compares the [int64] column
    with the [float64] column as [float64], which is the same comparison
    for ids that [float64] holds exactly ([exact_in_float64] below). *)
Definition merge (left right : list Message) : list (Message * Message) :=
  flat_map (fun q =>
    map (fun a => (q, a))
        (filter (fun a => in_response_to_tweet_id a = Some (tweet_id q)) right))
    left.

Definition target_author : str := py "AmazonHelp".

Definition organize_QA_dataframe `{Unicode} `{Detector}
    (df : list Message) (alphabet : str) : outcome (list (str * str)) :=
  (* Pick clients' tweets that started a chat *)
  let exchanges :=
    filter (fun m => inbound m = true /\ in_response_to_tweet_id m = None) df in
  (* Attach relative answers *)
  let exchanges := merge exchanges df in
  (* Filter for current company *)
  let exchanges := filter (fun qa => author_id (snd qa) = target_author) exchanges in
  let exchanges := map (fun qa => (text (fst qa), text (snd qa))) exchanges in
  (* Turn all lowercase *)
  let exchanges := map (fun xy => (lower (fst xy), snd xy)) exchanges in
  let exchanges := map (fun xy => (fst xy, lower (snd xy))) exchanges in
  (* Keep only 'en' tweets *)
  english_x ← comprehension check_language (map fst exchanges);
  english_y ← comprehension check_language (map snd exchanges);
  let exchanges :=
    map (fun row => fst (fst row))
      (filter (fun row => snd (fst row) = py "en" /\ snd row = py "en")
              (zip (zip exchanges english_x) english_y)) in
  (* Keep just complete tweets *)
  let exchanges :=
    filter (fun xy => negb (ends_with (py "(1/2)") (snd xy)) = true
                      /\ negb (ends_with (py "(2/2)") (snd xy)) = true)
           exchanges in
  (* Main text cleaning *)
  let exchanges := map (fun xy => (clean_text (fst xy), snd xy)) exchanges in
  let exchanges := map (fun xy => (fst xy, clean_text (snd xy))) exchanges in
  (* Differentiate cleaning for Q and A *)
  let exchanges := map (fun xy => (process_x_text (fst xy) alphabet, snd xy)) exchanges in
  let exchanges := map (fun xy => (fst xy, process_y_text (snd xy) alphabet)) exchanges in
  Returned exchanges.

(** ** vectorize_tweet, vectorize_dataset *)

Local Open Scope Z_scope.

Definition vectorize_tweet (tweet : str) (char2idx : gmap N Z) : list Z :=
  let chars_vector := tweet in
  map (fun char => match char2idx !! char with
                   | Some idx => idx
                   | None => 0
                   end) chars_vector.

(** [max(L, key=len)]: the first element of greatest length; [ValueError]
    on an empty list. *)
Fixpoint max_by_len (best : list Z) (L : list (list Z)) : list Z :=
  match L with
  | [] => best
  | x :: L' => max_by_len (if (length best <? length x)%nat then x else best) L'
  end.

Definition py_max_len (L : list (list Z)) : outcome (list Z) :=
  match L with
  | [] => Raised ValueError
  | x :: L' => Returned (max_by_len x L')
  end.

(** The integer that a binary float of [prec] significant bits holds after
    an integer is cast to it: round to nearest, ties to even.  Indices are
    [int64] values, far below the overflow threshold of either format. *)
Definition round_int (prec : Z) (z : Z) : Z :=
  let m := Z.abs z in
  let e := Z.log2 m + 1 - prec in
  if e <=? 0 then z
  else
    let q := m / 2 ^ e in
    let r := m mod 2 ^ e in
    let half := 2 ^ (e - 1) in
    let q := if (half <? r) || ((r =? half) && Z.odd q) then q + 1 else q in
    Z.sgn z * (q * 2 ^ e).

(** [np.concatenate] of a [float64] array with an integer array *)
Definition to_float64 (v : Z) : Z := round_int 53 v.

(** [.astype(np.float32)] *)
Definition astype_float32 (v : Z) : Z := round_int 24 v.

(** [np.stack]: [ValueError] without arrays or with arrays of different
    lengths. *)
Definition np_stack (rows : list (list Z)) : outcome (list (list Z)) :=
  match rows with
  | [] => Raised ValueError
  | r :: rows' =>
      if forallb (fun r' => (length r' =? length r)%nat) rows'
      then Returned rows
      else Raised ValueError
  end.

Definition left_pad (max_length : nat) (q : list Z) : list Z :=
  replicate (max_length - length q) 0 ++ map to_float64 q.

Definition vectorize_dataset (df : list (str * str)) (char2idx : gmap N Z)
    : outcome (list (list Z) * list (list Z)) :=
  let Q := map (fun row => vectorize_tweet (fst row) char2idx) df in
  let A := map (fun row => vectorize_tweet (snd row) char2idx) df in
  longest_q ← py_max_len Q;
  longest_a ← py_max_len A;
  let max_length := Nat.max (length longest_q) (length longest_a) in
  let Q := map (left_pad max_length) Q in
  let A := map (left_pad max_length) A in
  Q ← np_stack Q;
  A ← np_stack A;
  let Q := map (map astype_float32) Q in
  let A := map (map astype_float32) A in
  Returned (Q, A).

(** ** train_test_val_split *)

(** Python floats: IEEE 754 binary64. *)
Definition b64_add : spec_float -> spec_float -> spec_float := SFadd 53 1024.
Definition b64_sub : spec_float -> spec_float -> spec_float := SFsub 53 1024.
Definition b64_mul : spec_float -> spec_float -> spec_float := SFmul 53 1024.
Definition b64_div : spec_float -> spec_float -> spec_float := SFdiv 53 1024.

(** [float(n)], the conversion applied to the integer operand of a mixed
    operation. *)
Definition float_of_int (n : Z) : spec_float := binary_normalize 53 1024 n 0 false.

(** [int(x)]: truncation towards zero. *)
Definition int_of_float (x : spec_float) : outcome Z :=
  match x with
  | S754_zero _ => Returned 0
  | S754_finite sign m e =>
      let a := if 0 <=? e then Z.pos m * 2 ^ e else Z.pos m / 2 ^ (- e) in
      Returned (if sign then - a else a)
  | S754_infinity _ => Raised OverflowError
  | S754_nan => Raised ValueError
  end.

(** [sklearn.utils.shuffle(Q, A, random_state=seed)] draws one permutation
    of the row numbers from the seed and takes the rows of both arrays in
    that order. *)
Class Shuffler : Type := {
  shuffle_indices : Z -> nat -> list nat;
  shuffle_indices_perm : forall seed n, Permutation (shuffle_indices seed n) (seq 0 n)
}.

Definition take_rows {A : Type} (indices : list nat) (M : list A) : list A :=
  omap (fun i => M !! i) indices.

Definition sklearn_shuffle `{Shuffler} {A : Type} (Q A_ : list A) (seed : Z)
    : outcome (list A * list A) :=
  if (length Q =? length A_)%nat
  then let indices := shuffle_indices seed (length Q) in
       Returned (take_rows indices Q, take_rows indices A_)
  else Raised ValueError.

(** A bound of a slice with step 1 on a sequence of [n] items. *)
Definition slice_index (n : nat) (i : Z) : nat :=
  if i <? 0 then Z.to_nat (Z.max 0 (i + Z.of_nat n))
  else Z.to_nat (Z.min i (Z.of_nat n)).

(** [M[lo:hi, :]] and [M[lo:, :]] *)
Definition slice {A : Type} (M : list A) (lo hi : Z) : list A :=
  let lo := slice_index (length M) lo in
  let hi := slice_index (length M) hi in
  take (hi - lo) (drop lo M).

Definition slice_from {A : Type} (M : list A) (lo : Z) : list A :=
  drop (slice_index (length M) lo) M.

Definition train_val_cutoff (n : nat) (val_size test_size : spec_float) : outcome Z :=
  int_of_float
    (b64_mul (float_of_int (Z.of_nat n))
             (b64_sub (float_of_int 1) (b64_add val_size test_size))).

Definition val_test_cutoff (n : nat) (test_size : spec_float) : outcome Z :=
  int_of_float
    (b64_mul (float_of_int (Z.of_nat n)) (b64_sub (float_of_int 1) test_size)).

Record Split (M : Type) : Type := {
  Q_train : M; A_train : M; Q_val : M; A_val : M; Q_test : M; A_test : M
}.
Arguments Q_train {M}. Arguments A_train {M}. Arguments Q_val {M}.
Arguments A_val {M}. Arguments Q_test {M}. Arguments A_test {M}.

Definition train_test_val_split `{Shuffler} {R : Type} (Q A : list R)
    (val_size test_size : spec_float) (seed : Z) : outcome (Split (list R)) :=
  (* shuffle *)
  QA ← sklearn_shuffle Q A seed;
  let Q := fst QA in
  let A := snd QA in
  (* Compute cutoffs to make splits *)
  train_val_cutoff ← train_val_cutoff (length Q) val_size test_size;
  val_test_cutoff ← val_test_cutoff (length Q) test_size;
  Returned {|
    Q_train := slice Q 0 train_val_cutoff;
    A_train := slice A 0 train_val_cutoff;
    Q_val := slice Q train_val_cutoff val_test_cutoff;
    A_val := slice A train_val_cutoff val_test_cutoff;
    Q_test := slice_from Q val_test_cutoff;
    A_test := slice_from A val_test_cutoff
  |}.

(** ** get_amazon_dataset *)

(** [enumerate(alphabet, start)] *)
Fixpoint enumerate (alphabet : str) (start : Z) : list (Z * N) :=
  match alphabet with
  | [] => []
  | char :: rest => (start, char) :: enumerate rest (start + 1)
  end.

(** [{ char[1]: char[0] for char in enumerate(alphabet, 1) }] *)
Definition make_char2idx (alphabet : str) : gmap N Z :=
  fold_left (fun d char => <[snd char := fst char]> d) (enumerate alphabet 1) ∅.

(** [np.expand_dims(A, axis=-1)] *)
Definition expand_dims (A : list (list Z)) : list (list (list Z)) :=
  map (map (fun v => [v])) A.

Record Dataset : Type := {
  ds_Q_train : list (list Z);
  ds_A_train : list (list (list Z));
  ds_Q_val : list (list Z);
  ds_A_val : list (list (list Z));
  ds_Q_test : list (list Z);
  ds_A_test : list (list (list Z));
  ds_char2idx : gmap N Z
}.

(** The wrapper, from the table that [pd.read_csv] has loaded;
    [val_size], [test_size] are [params['val_test_size']] and [seed] is
    [params['seed']]. *)
Definition get_amazon_dataset `{Unicode} `{Detector} `{Shuffler}
    (df : list Message) (val_size test_size : spec_float) (seed : Z)
    : outcome Dataset :=
  (* Generate alphabet *)
  let alphabet := generate_alphabet in
  (* Mapping char-index for vectorization *)
  let char2idx := make_char2idx alphabet in
  df ← organize_QA_dataframe df alphabet;
  QA ← vectorize_dataset df char2idx;
  split ← train_test_val_split (fst QA) (snd QA) val_size test_size seed;
  (* Expand dimensions for compatibility with model output *)
  Returned {|
    ds_Q_train := Q_train split;
    ds_A_train := expand_dims (A_train split);
    ds_Q_val := Q_val split;
    ds_A_val := expand_dims (A_val split);
    ds_Q_test := Q_test split;
    ds_A_test := expand_dims (A_test split);
    ds_char2idx := char2idx
  |}.

(** ** Vocabulary of the statements *)

(** A non-empty match of [m] starts at the head of [s], or somewhere in
    [s]. *)
Definition matches_at (m : str -> option nat) (s : str) : bool :=
  match m s with
  | Some (S _) => true
  | _ => false
  end.

Fixpoint matches_somewhere (m : str -> option nat) (s : str) : bool :=
  match s with
  | [] => false
  | _ :: r => matches_at m s || matches_somewhere m r
  end.

(** The text still holds something that the removal steps of [clean_text]
    rewrite or delete: an escaped bracket, the company handle, a numeric
    reference, a final signature or a part marker. *)
Definition has_removable `{Unicode} (t : str) : bool :=
  existsb (fun m => matches_somewhere m t)
    [ lit_match (py "\{"); lit_match (py "\}"); lit_match (py "\[");
      lit_match (py "\]"); lit_match (py "@amazonhelp");
      match_len reference_re; match_len signature_re; match_len part_re ].

(** The characters that [generate_alphabet] takes out of
    [string.printable]. *)
Definition excluded_characters : str :=
  py "ABCDEFGHIJKLMNOPQRSTUVWXYZ" ++ py "[\]^_`{|}~" ++ [9; 10; 13; 11; 12]%N
  ++ py ";<=>" ++ py "*+".

(** Length of the longest prefix of [s] made of characters of class [p]. *)
Fixpoint span_len (p : codepoint -> bool) (s : str) : nat :=
  match s with
  | [] => O
  | c :: r => if p c then S (span_len p r) else O
  end.

(** [collapse_spaces] in one pass: [after_blank] tells that the previous
    character was a space that has been kept. *)
Fixpoint squeeze (after_blank : bool) (s : str) : str :=
  match s with
  | [] => []
  | c :: r =>
      if is_blank c
      then if after_blank then squeeze true r else 32%N :: squeeze true r
      else c :: squeeze false r
  end.

(** Two spaces in a row somewhere in [s]. *)
Fixpoint has_double_blank (s : str) : bool :=
  match s with
  | [] => false
  | a :: r =>
      match r with
      | b :: _ => (is_blank a && is_blank b) || has_double_blank r
      | [] => false
      end
  end.

(** No whitespace at either end. *)
Definition trimmed (s : str) : Prop :=
  (forall c, head s = Some c -> is_space c = false)
  /\ (forall c, last s = Some c -> is_space c = false).

(** The run of the matcher has found a match. *)
Definition succeeds {A : Type} (o : option A) : bool :=
  match o with
  | Some _ => true
  | None => false
  end.

(** The least number of characters that a match of [r] takes. *)
Fixpoint min_len (r : regex) : nat :=
  match r with
  | Chr _ | Cls _ | Plus _ => 1
  | Cat r1 r2 => min_len r1 + min_len r2
  | Alt r1 r2 => Nat.min (min_len r1) (min_len r2)
  | Opt _ | Star _ | Eos => 0
  end.

(** [s] starts with the word [w], and a character that is not whitespace
    follows it. *)
Fixpoint lit_before (w s : str) : bool :=
  match w with
  | [] =>
      match s with
      | d :: _ => non_space d
      | [] => false
      end
  | a :: w' =>
      match s with
      | c :: s' => (c =? a)%N && lit_before w' s'
      | [] => false
      end
  end.

(** A URL, as [clean_text] understands it, starts at the head of [s]. *)
Definition url_start (s : str) : bool :=
  lit_before (py "https://") s || lit_before (py "http://") s
  || lit_before (py "www.") s.

(** The characters that the first steps of [clean_text] turn into a space,
    a comma or an apostrophe. *)
Definition rewritten_characters : str :=
  [9; 10; 13; 11; 12; 0x200B; 0x200D; 59; 0x2018; 0xB4; 96; 0x2019; 0x201D; 0x201C]%N.

(** What the replacement of one character by another does to a
    character, and what [normalize_characters] does to it. *)
Definition replace_char (old new c : codepoint) : codepoint :=
  if (c =? old)%N then new else c.

Definition rewrite_character (c : codepoint) : codepoint :=
  (replace_char 0x201C 39 (replace_char 0x201D 39 (replace_char 0x2019 39
  (replace_char 96 39 (replace_char 0xB4 39 (replace_char 0x2018 39
  (replace_char 0x2018 39 (replace_char 59 44 (replace_char 0x200D 32
  (replace_char 0x200B 32 (replace_char 12 32 (replace_char 11 32
  (replace_char 13 32 (replace_char 10 32 (replace_char 9 32 c)))))))))))))))%N.

(** The removal steps of [clean_text] as a list of patterns and
    replacements, in the order of the source, and their application. *)
Definition removal_steps `{Unicode} : list ((str -> option nat) * str) :=
  [ (lit_match (py "\{"), py "\("); (lit_match (py "\}"), py "\)");
    (lit_match (py "\["), py "\("); (lit_match (py "\]"), py "\)");
    (lit_match (py "&amp;"), py "&"); (lit_match (py "@amazonhelp"), []);
    (match_len reference_re, []); (match_len signature_re, []);
    (lit_match [0x200D; 0x2642; 0xFE0F]%N, []);
    (lit_match [0x200D; 0x2640; 0xFE0F]%N, []);
    (match_len part_re, []) ].

Definition apply_steps (steps : list ((str -> option nat) * str)) (s : str) : str :=
  fold_left (fun s step => sub_all (fst step) (snd step) s) steps s.

(** A measure that every step of [clean_text] lowers when it acts: two
    per character, three for a brace or a square bracket. *)
Definition weight (c : codepoint) : nat :=
  if ((c =? 123) || (c =? 125) || (c =? 91) || (c =? 93))%N then 3 else 2.

Fixpoint mass (s : str) : nat :=
  match s with
  | [] => 0
  | c :: r => weight c + mass r
  end.

(** The greatest length of a text of the table, questions and answers
    together. *)
Definition common_width (df : list (str * str)) : nat :=
  Nat.max (max_list (map (fun row => length (fst row)) df))
          (max_list (map (fun row => length (snd row)) df)).

(** The number a finite float denotes. *)
Definition float_value (x : spec_float) : Q :=
  match x with
  | S754_finite sign m e =>
      ((if sign then -1 else 1) * inject_Z (Z.pos m) * Qpower 2 e)%Q
  | _ => 0%Q
  end.

(** The cutoffs as the specification words them, in exact arithmetic:
    floor(N * (1 - val_frac - test_frac)) and floor(N * (1 - test_frac)). *)
Definition spec_train_end (n : nat) (val_frac test_frac : Q) : Z :=
  Qfloor (inject_Z (Z.of_nat n) * (1 - val_frac - test_frac))%Q.

Definition spec_val_end (n : nat) (test_frac : Q) : Z :=
  Qfloor (inject_Z (Z.of_nat n) * (1 - test_frac))%Q.

(** Every id of the table is an integer that [float64] holds exactly, so
    that the join of [organize_QA_dataframe], which pandas computes on
    [float64] keys, compares the ids themselves. *)
Definition exact_in_float64 (df : list Message) : Prop :=
  Forall (fun m =>
            Z.abs (tweet_id m) <= 2 ^ 53
            /\ forall v, in_response_to_tweet_id m = Some v -> Z.abs v <= 2 ^ 53)
         df.

(** Every index of the dictionary is an [int64] value: [np.array] then
    builds integer arrays, and neither cast can overflow. *)
Definition int64_indices (char2idx : gmap N Z) : Prop :=
  forall c v, char2idx !! c = Some v -> - 2 ^ 63 <= v < 2 ^ 63.

(** The detector as [check_language] lets it act: where the given one
    raises, this one answers 'en'. *)
Definition fail_open (D : Detector) : Detector :=
  {| detect := fun tweet =>
       match @detect D tweet with
       | Returned tag => Returned tag
       | Raised _ => Returned (py "en")
       end |}.

(** ** Tables and collaborators used in the examples

    The ASCII part of the Unicode tables, a detector that fails on the
    empty text, and a shuffle that leaves the rows in place. *)
Definition ascii_isalnum (c : codepoint) : bool :=
  (is_digit c || ((65 <=? c) && (c <=? 90)) || ((97 <=? c) && (c <=? 122)))%N.

Definition ascii_lower (s : str) : str :=
  map (fun c => if ((65 <=? c) && (c <=? 90))%N then (c + 32)%N else c) s.

Definition ascii_tables : Unicode :=
  {| isalnum := ascii_isalnum; lower := ascii_lower |}.

Definition fussy_detector : Detector :=
  {| detect := fun tweet =>
       match tweet with
       | [] => Raised LangDetectException
       | _ => Returned (py "en")
       end |}.

Definition in_place : Shuffler :=
  {| shuffle_indices := fun _ n => seq 0 n;
     shuffle_indices_perm := fun _ n => Permutation_refl (seq 0 n) |}.

(** The double nearest to the fraction [p/q]. *)
Definition decimal (p q : Z) : spec_float :=
  b64_div (float_of_int p) (float_of_int q).

(** A table whose only conversation is answered by another company. *)
Definition other_company_table : list Message :=
  [ {| tweet_id := 1; author_id := py "115712"; inbound := true;
       in_response_to_tweet_id := None; text := py "where is my parcel" |};
    {| tweet_id := 2; author_id := py "sprintcare"; inbound := false;
       in_response_to_tweet_id := Some 1; text := py "we are on it" |} ].

(** A table with one complete exchange, one question without a reply and
    one follow-up of the customer. *)
Definition four_rows : list Message :=
  [ {| tweet_id := 1; author_id := py "115712"; inbound := true;
       in_response_to_tweet_id := None;
       text := py "Where is my parcel?? www.example.com" |};
    {| tweet_id := 2; author_id := py "AmazonHelp"; inbound := false;
       in_response_to_tweet_id := Some 1;
       text := py "Sorry for the delay! We'll check [now] ^IB" |};
    {| tweet_id := 3; author_id := py "115713"; inbound := true;
       in_response_to_tweet_id := None; text := py "Anyone there?" |};
    {| tweet_id := 4; author_id := py "115712"; inbound := true;
       in_response_to_tweet_id := Some 2; text := py "thanks" |} ].

(** A matrix of [n] rows, row [i] holding [i]. *)
Definition numbered_rows (n : nat) : list (list Z) :=
  map (fun i => [Z.of_nat i]) (seq 0 n).

(** * Properties *)

(** ** The pipeline on small inputs *)

Example generate_alphabet_length : length generate_alphabet = 53%nat.
Proof. reflexivity. Qed.

Example clean_text_example :
  @clean_text ascii_tables
    (py "hey @amazonhelp check www.example.com (1/2) " ++ [0x2018%N] ++ py "ok" ++ [0x2019%N])
  = py "hey check " ++ [url_mark] ++ py " 'ok'".
Proof. vm_compute. reflexivity. Qed.

Example projection_example :
  let tweet := py "caf" ++ [0xE9%N] ++ py "  ok*" in
  process_x_text tweet generate_alphabet
    = py "caf" ++ [unknown_mark] ++ py " ok" ++ [unknown_mark]
  /\ process_y_text tweet generate_alphabet = py "caf ok".
Proof. split; vm_compute; reflexivity. Qed.

Example vectorize_tweet_example :
  vectorize_tweet (py "ab" ++ [unknown_mark] ++ py " 0") (make_char2idx generate_alphabet)
  = [11; 12; 0; 53; 1].
Proof. vm_compute. reflexivity. Qed.

Example organize_four_rows :
  @organize_QA_dataframe ascii_tables fussy_detector four_rows generate_alphabet
  = Returned [ (py "where is my parcel?? " ++ [unknown_mark],
                py "sorry for the delay! we'll check now") ].
Proof. vm_compute. reflexivity. Qed.

Example dataset_four_rows :
  (ds ← @get_amazon_dataset ascii_tables fussy_detector in_place four_rows
          (decimal 1 10) (decimal 1 10) 42;
   Returned (ds_Q_train ds, ds_Q_val ds, ds_Q_test ds, length <$> ds_A_test ds))
  = Returned
      ([], [],
       [ replicate 14 0
         ++ [33; 18; 15; 28; 15; 53; 19; 29; 53; 23; 35; 53; 26; 11; 28; 13; 15; 22;
             51; 51; 53; 0] ],
       [36%nat]).
Proof. vm_compute. reflexivity. Qed.

(** ** Replacement, generically *)

Section Substitution.
Variable m : str -> option nat.
Variable repl : str.

Lemma sub_from_Forall (P : N -> Prop) (s : str) (k : nat) :
  Forall P s -> Forall P repl -> Forall P (sub_from m repl k s).
Proof.
  intros Hs Hr. revert k.
  induction Hs as [|c r Hc Hr' IH]; intros k; simpl; [constructor|].
  destruct k as [|k]; [|apply IH].
  destruct (m (c :: r)) as [[|n]|].
  - constructor; [exact Hc | apply IH].
  - apply Forall_app; split; [exact Hr | apply IH].
  - constructor; [exact Hc | apply IH].
Qed.

Lemma sub_all_Forall (P : N -> Prop) (s : str) :
  Forall P s -> Forall P repl -> Forall P (sub_all m repl s).
Proof. apply sub_from_Forall. Qed.

(** Without a match there is nothing to replace. *)
Lemma sub_all_no_match (s : str) :
  matches_somewhere m s = false -> sub_all m repl s = s.
Proof.
  unfold sub_all.
  induction s as [|c r IH]; simpl; [reflexivity|].
  intros [Hat Hr]%orb_false_elim.
  unfold matches_at in Hat.
  destruct (m (c :: r)) as [[|n]|]; try discriminate;
    f_equal; apply IH, Hr.
Qed.
End Substitution.

(** ** The alphabet *)

(** Closed decidable goals are settled by evaluation. *)
Ltac by_eval := apply (bool_decide_unpack _); vm_compute; exact I.

Lemma string_printable_range (c : N) :
  c ∈ string_printable <-> ((32 <= c <= 126) \/ (9 <= c <= 13))%N.
Proof.
  split.
  - intros Hin. apply list_elem_of_In in Hin. vm_compute in Hin.
    repeat (destruct Hin as [<- | Hin]; [lia|]). destruct Hin.
  - intros Hc.
    assert (Hin : c ∈ (N.of_nat <$> seq 0 127)).
    { apply list_elem_of_fmap. exists (N.to_nat c).
      split; [lia | apply elem_of_seq; lia]. }
    apply list_elem_of_In in Hin. vm_compute in Hin.
    repeat (destruct Hin as [<- | Hin];
      [first [ by_eval | exfalso; lia ] |]).
    destruct Hin.
Qed.

(** C2: [generate_alphabet] takes no argument and is one fixed string, in
    the order of [string.printable].  It has no repeated character and
    contains the space; a character belongs to it exactly when it is a
    printable ASCII character (code 32 to 126, or one of the five
    whitespace controls) that is not an upper-case letter, not one of
    [ \ ] ^ _ ` { | } ~, not tab, LF, CR, VT or FF, not one of ; < = >
    and not * or +. *)
Theorem generate_alphabet_spec :
  generate_alphabet
    = py "0123456789abcdefghijklmnopqrstuvwxyz!" ++ [34%N] ++ py "#$%&'(),-./:?@ "
  /\ NoDup generate_alphabet
  /\ 32%N ∈ generate_alphabet
  /\ forall c : N,
       c ∈ generate_alphabet <->
       ((32 <= c <= 126)%N \/ (9 <= c <= 13)%N) /\ c ∉ excluded_characters.
Proof.
  split; [reflexivity|].
  split; [by_eval|].
  split; [by_eval|].
  intros c. rewrite <- string_printable_range. split.
  - intros Hin. apply list_elem_of_In in Hin. vm_compute in Hin.
    repeat (destruct Hin as [<- | Hin];
      [split; by_eval|]).
    destruct Hin.
  - intros [Hin Hex]. apply list_elem_of_In in Hin. vm_compute in Hin.
    repeat (destruct Hin as [<- | Hin];
      [first [ by_eval
             | exfalso; apply Hex; by_eval ] |]).
    destruct Hin.
Qed.

(** ** Repetition of a class *)

Lemma span_len_le p (s : str) : (span_len p s <= length s)%nat.
Proof. induction s as [|c r IH]; simpl; [lia|]. destruct (p c); simpl; lia. Qed.

Lemma star_class_Some p (s : str) :
  star_class p s Some = Some (drop (span_len p s) s).
Proof.
  induction s as [|c r IH]; simpl; [reflexivity|].
  destruct (p c); [rewrite IH|]; reflexivity.
Qed.

Lemma match_len_Plus p (s : str) :
  match_len (Plus p) s =
  match s with
  | c :: r => if p c then Some (S (span_len p r)) else None
  | [] => None
  end.
Proof.
  unfold match_len. destruct s as [|c r]; simpl; [reflexivity|].
  destruct (p c); [|reflexivity].
  rewrite star_class_Some, length_drop. f_equal.
  pose proof (span_len_le p r). lia.
Qed.

(** ** collapse_spaces *)

Lemma collapse_squeeze_both (s : str) :
  sub_from (match_len spaces_re) [32%N] (span_len is_blank s) s = squeeze true s
  /\ sub_from (match_len spaces_re) [32%N] 0 s = squeeze false s.
Proof.
  induction s as [|c r [IH1 IH2]]; [split; reflexivity|].
  unfold spaces_re in *. cbn [sub_from span_len squeeze].
  rewrite match_len_Plus.
  destruct (is_blank c); split; simpl; congruence.
Qed.

Lemma collapse_spaces_squeeze (s : str) : collapse_spaces s = squeeze false s.
Proof. apply collapse_squeeze_both. Qed.

Lemma squeeze_Forall (P : N -> Prop) b (s : str) :
  Forall P s -> Forall P (squeeze b s).
Proof.
  intros Hs. revert b. induction Hs as [|c r Hc _ IH]; intros b; simpl; [constructor|].
  destruct (is_blank c) eqn:Hb.
  - apply N.eqb_eq in Hb. subst c. destruct b; [apply IH | constructor; [exact Hc | apply IH]].
  - constructor; [exact Hc | apply IH].
Qed.

Lemma squeeze_head_blank b (s : str) c r :
  squeeze b s = c :: r -> is_blank c = true -> b = false.
Proof.
  revert b. induction s as [|x s IH]; intros b; simpl; [discriminate|].
  destruct (is_blank x) eqn:Hx.
  - destruct b; [|reflexivity]. intros H1 H2. discriminate (IH _ H1 H2).
  - intros [= <- _] H. congruence.
Qed.

Lemma squeeze_no_double b (s : str) : has_double_blank (squeeze b s) = false.
Proof.
  revert b. induction s as [|x s IH]; intros b; [reflexivity|].
  simpl. destruct (is_blank x) eqn:Hx.
  - destruct b; [apply IH|].
    specialize (IH true). simpl.
    destruct (squeeze true s) as [|y t] eqn:E; [reflexivity|].
    rewrite IH, orb_false_r.
    destruct (is_blank y) eqn:Hy; [|reflexivity].
    discriminate (squeeze_head_blank _ _ _ _ E Hy).
  - specialize (IH false). simpl.
    destruct (squeeze false s) as [|y t] eqn:E; [reflexivity|].
    rewrite IH, Hx. reflexivity.
Qed.

Lemma squeeze_fixed (s : str) :
  has_double_blank s = false -> squeeze false s = s
  /\ (forall c r, s = c :: r -> is_blank c = false -> squeeze true s = s).
Proof.
  induction s as [|x s IH]; intros H; [split; [reflexivity | discriminate]|].
  simpl in H. destruct s as [|y t].
  - simpl. destruct (is_blank x) eqn:Hx.
    + apply N.eqb_eq in Hx. subst x. split; [reflexivity|].
      intros c r [= <- _]. discriminate.
    + split; reflexivity.
  - apply orb_false_elim in H as [Hxy H]. destruct (IH H) as [IH1 IH2].
    cbn [squeeze] in *. destruct (is_blank x) eqn:Hx.
    + simpl in Hxy. apply N.eqb_eq in Hx. subst x. rewrite Hxy in *.
      split; [|intros c r [= <- _]; discriminate].
      congruence.
    + rewrite IH1. split; reflexivity.
Qed.


Lemma collapse_spaces_Forall (P : N -> Prop) (s : str) :
  Forall P s -> Forall P (collapse_spaces s).
Proof. rewrite collapse_spaces_squeeze. apply squeeze_Forall. Qed.

Lemma collapse_spaces_no_double (s : str) :
  has_double_blank (collapse_spaces s) = false.
Proof. rewrite collapse_spaces_squeeze. apply squeeze_no_double. Qed.

Lemma collapse_spaces_fixed (s : str) :
  has_double_blank s = false -> collapse_spaces s = s.
Proof. rewrite collapse_spaces_squeeze. apply squeeze_fixed. Qed.


(** ** strip *)

Lemma lstrip_decomp (s : str) : exists w, s = w ++ lstrip s /\ Forall (fun c => is_space c = true) w.
Proof.
  induction s as [|c r (w & IH & Hw)]; [exists []; split; [reflexivity | constructor]|].
  simpl. destruct (is_space c) eqn:Hc.
  - exists (c :: w). split; [simpl; congruence | constructor; assumption].
  - exists []. split; [reflexivity | constructor].
Qed.

Lemma lstrip_head (s : str) c : head (lstrip s) = Some c -> is_space c = false.
Proof.
  induction s as [|x r IH]; simpl; [discriminate|].
  destruct (is_space x) eqn:Hx; [exact IH|].
  intros [= <-]. exact Hx.
Qed.

Lemma lstrip_fixed (s : str) :
  (forall c, head s = Some c -> is_space c = false) -> lstrip s = s.
Proof.
  destruct s as [|x r]; [reflexivity|]. simpl. intros H.
  rewrite (H x eq_refl). reflexivity.
Qed.

Lemma rstrip_snoc (s : str) c :
  rstrip (s ++ [c]) = if is_space c then rstrip s else s ++ [c].
Proof.
  unfold rstrip. rewrite rev_app_distr. simpl.
  destruct (is_space c); [reflexivity|].
  simpl. rewrite rev_involutive. reflexivity.
Qed.

Lemma rstrip_decomp (s : str) : exists w, s = rstrip s ++ w /\ Forall (fun c => is_space c = true) w.
Proof.
  induction s as [|c r (w & IH & Hw)] using rev_ind; [exists []; split; [reflexivity | constructor]|].
  rewrite rstrip_snoc. destruct (is_space c) eqn:Hc.
  - exists (w ++ [c]). split.
    + rewrite app_assoc. congruence.
    + apply Forall_app. split; [assumption | repeat constructor; assumption].
  - exists []. split; [rewrite app_nil_r; reflexivity | constructor].
Qed.

Lemma rstrip_last (s : str) c : last (rstrip s) = Some c -> is_space c = false.
Proof.
  induction s as [|x r IH] using rev_ind; [discriminate|].
  rewrite rstrip_snoc. destruct (is_space x) eqn:Hx; [exact IH|].
  rewrite last_snoc. intros [= <-]. exact Hx.
Qed.

Lemma rstrip_fixed (s : str) :
  (forall c, last s = Some c -> is_space c = false) -> rstrip s = s.
Proof.
  destruct s as [|x r _] using rev_ind; [reflexivity|].
  intros H. rewrite rstrip_snoc, (H x); [reflexivity | apply last_snoc].
Qed.

Lemma strip_decomp (s : str) :
  exists w1 w2, s = w1 ++ strip s ++ w2
    /\ Forall (fun c => is_space c = true) w1 /\ Forall (fun c => is_space c = true) w2.
Proof.
  destruct (lstrip_decomp s) as (w1 & H1 & Hw1).
  destruct (rstrip_decomp (lstrip s)) as (w2 & H2 & Hw2).
  exists w1, w2. unfold strip. rewrite <- H2. auto.
Qed.

Lemma strip_trimmed (s : str) : trimmed (strip s).
Proof.
  split; [|apply rstrip_last].
  intros c Hc. unfold strip in Hc.
  destruct (rstrip_decomp (lstrip s)) as (w & Hw & _).
  apply (lstrip_head s). rewrite Hw.
  destruct (rstrip (lstrip s)); [discriminate | exact Hc].
Qed.

Lemma strip_fixed (s : str) : trimmed s -> strip s = s.
Proof.
  intros [Hh Hl]. unfold strip. rewrite (lstrip_fixed s Hh). apply rstrip_fixed, Hl.
Qed.

Lemma strip_Forall (P : N -> Prop) (s : str) : Forall P s -> Forall P (strip s).
Proof.
  destruct (strip_decomp s) as (w1 & w2 & Hs & _). intros H. rewrite Hs in H.
  apply Forall_app in H as [_ H]. apply Forall_app in H as [H _]. exact H.
Qed.


Lemma has_double_blank_app (a b : str) :
  has_double_blank (a ++ b) = false ->
  has_double_blank a = false /\ has_double_blank b = false.
Proof.
  induction a as [|x a IH]; [simpl; auto|].
  destruct a as [|y a].
  - simpl. destruct b; [auto|]. intros [_ H]%orb_false_elim. auto.
  - change (((x :: y :: a) ++ b)) with (x :: (y :: a) ++ b).
    change (has_double_blank (x :: (y :: a) ++ b))
      with ((is_blank x && is_blank y) || has_double_blank ((y :: a) ++ b)).
    change (has_double_blank (x :: y :: a))
      with ((is_blank x && is_blank y) || has_double_blank (y :: a)).
    intros [H1 H2]%orb_false_elim. destruct (IH H2) as [Ha Hb].
    rewrite H1, Ha. auto.
Qed.

Lemma strip_no_double (s : str) :
  has_double_blank s = false -> has_double_blank (strip s) = false.
Proof.
  destruct (strip_decomp s) as (w1 & w2 & Hs & _). intros H. rewrite Hs in H.
  apply has_double_blank_app in H as [_ H].
  apply has_double_blank_app in H as [H _]. exact H.
Qed.

(** ** The projections onto the alphabet *)

Lemma char_in_elem_of c (A : str) : char_in c A = true <-> c ∈ A.
Proof.
  unfold char_in. rewrite existsb_exists. split.
  - intros (x & Hx & Heq). apply N.eqb_eq in Heq. subst x.
    apply list_elem_of_In, Hx.
  - intros Hin. exists c. split; [apply list_elem_of_In, Hin | apply N.eqb_refl].
Qed.

Lemma tidy_Forall (P : N -> Prop) (s : str) :
  Forall P s -> Forall P (strip (collapse_spaces s)).
Proof. intros H. apply strip_Forall, collapse_spaces_Forall, H. Qed.

Lemma tidy_no_double (s : str) : has_double_blank (strip (collapse_spaces s)) = false.
Proof. apply strip_no_double, collapse_spaces_no_double. Qed.

(** C3: for every string and every alphabet, each character of the
    question-side projection is a member of the alphabet or the
    out-of-alphabet marker, and each character of the answer-side
    projection is a member of the alphabet or a space; neither result
    has two spaces in a row, and neither starts or ends with
    whitespace. *)
Theorem projection_closed (s A : str) :
  Forall (fun c => c ∈ A \/ c = unknown_mark) (process_x_text s A)
  /\ Forall (fun c => c ∈ A \/ c = 32%N) (process_y_text s A)
  /\ has_double_blank (process_x_text s A) = false
  /\ has_double_blank (process_y_text s A) = false
  /\ trimmed (process_x_text s A)
  /\ trimmed (process_y_text s A).
Proof.
  unfold process_x_text, process_y_text.
  repeat split; try apply tidy_no_double; try apply strip_trimmed;
    apply tidy_Forall, Forall_map, Forall_forall; intros c _; simpl;
    destruct (char_in c A) eqn:Hc; auto; left; apply char_in_elem_of, Hc.
Qed.

(** ** The character index and the vectorizer *)

Lemma char2idx_fold (l : str) (start : Z) (d : gmap N Z) (c : N) (v : Z) :
  fold_left (fun d char => <[snd char := fst char]> d) (enumerate l start) d !! c = Some v ->
  d !! c = Some v \/ (start <= v < start + Z.of_nat (length l) /\ c ∈ l).
Proof.
  revert start d. induction l as [|x l IH]; intros start d; simpl; [auto|].
  intros H. apply IH in H as [H | [Hv Hin]].
  - simpl in H. destruct (decide (x = c)) as [-> | Hne].
    + rewrite lookup_insert_eq in H. injection H as <-.
      right. split; [lia | apply list_elem_of_here].
    + rewrite lookup_insert_ne in H by exact Hne. auto.
  - right. split; [lia | apply list_elem_of_further, Hin].
Qed.

Lemma char2idx_fold_absent (l : str) (start : Z) (d : gmap N Z) (c : N) :
  c ∉ l ->
  fold_left (fun d char => <[snd char := fst char]> d) (enumerate l start) d !! c = d !! c.
Proof.
  revert start d. induction l as [|x l IH]; intros start d Hc; simpl; [reflexivity|].
  apply not_elem_of_cons in Hc as [Hne Hc].
  rewrite IH by exact Hc. simpl. apply lookup_insert_ne. congruence.
Qed.

Lemma make_char2idx_range (alphabet : str) (c : N) (v : Z) :
  make_char2idx alphabet !! c = Some v ->
  1 <= v <= Z.of_nat (length alphabet) /\ c ∈ alphabet.
Proof.
  intros H. apply char2idx_fold in H as [H | [Hv Hin]].
  - rewrite lookup_empty in H. discriminate.
  - split; [lia | exact Hin].
Qed.

Lemma make_char2idx_absent (alphabet : str) (c : N) :
  c ∉ alphabet -> make_char2idx alphabet !! c = None.
Proof.
  intros H. unfold make_char2idx. rewrite char2idx_fold_absent by exact H.
  apply lookup_empty.
Qed.

Lemma vectorize_tweet_lookup (s : str) (M : gmap N Z) (i : nat) (c : N) :
  s !! i = Some c ->
  vectorize_tweet s M !! i
  = Some (match M !! c with Some idx => idx | None => 0 end).
Proof.
  intros H. unfold vectorize_tweet.
  change (map ?f s) with (f <$> s). rewrite list_lookup_fmap, H. reflexivity.
Qed.

(** C4: [vectorize_tweet] returns one value per character of the string;
    at the position of a character that the map knows stands the index
    assigned to it, at the position of any other character stands 0; and
    the indices assigned by the character index of an alphabet run from
    1 to its length. *)
Theorem vectorize_tweet_spec (s : str) (M : gmap N Z) :
  length (vectorize_tweet s M) = length s
  /\ (forall i c v, s !! i = Some c -> M !! c = Some v ->
        vectorize_tweet s M !! i = Some v)
  /\ (forall i c, s !! i = Some c -> M !! c = None ->
        vectorize_tweet s M !! i = Some 0)
  /\ (forall alphabet c v, make_char2idx alphabet !! c = Some v ->
        1 <= v <= Z.of_nat (length alphabet)).
Proof.
  split; [apply length_map|].
  split; [|split].
  - intros i c v Hs HM. rewrite (vectorize_tweet_lookup s M i c Hs), HM. reflexivity.
  - intros i c Hs HM. rewrite (vectorize_tweet_lookup s M i c Hs), HM. reflexivity.
  - intros alphabet c v H. apply (make_char2idx_range alphabet c v H).
Qed.

(** ** The padded matrices *)

Lemma max_by_len_length (best : list Z) (L : list (list Z)) :
  length (max_by_len best L) = Nat.max (length best) (max_list (map length L)).
Proof.
  revert best. induction L as [|x L IH]; intros best; simpl; [lia|].
  rewrite IH. destruct (Nat.ltb_spec (length best) (length x)); lia.
Qed.

Lemma py_max_len_length (x : list Z) (L : list (list Z)) :
  exists longest, py_max_len (x :: L) = Returned longest
    /\ length longest = max_list (map length (x :: L)).
Proof. eexists. split; [reflexivity|]. apply max_by_len_length. Qed.

Lemma np_stack_even (w : nat) (rows : list (list Z)) :
  rows <> [] -> Forall (fun r => length r = w) rows -> np_stack rows = Returned rows.
Proof.
  destruct rows as [|r rows]; [congruence|]. intros _ H.
  apply Forall_cons in H as [Hr H]. unfold np_stack.
  replace (forallb _ rows) with true; [reflexivity|].
  symmetry. apply forallb_forall. intros r' Hin.
  rewrite Forall_forall in H. apply Nat.eqb_eq.
  rewrite Hr. apply H, list_elem_of_In, Hin.
Qed.

Lemma round_int_exact (prec v : Z) :
  0 < prec -> Z.abs v <= 2 ^ prec -> round_int prec v = v.
Proof.
  intros Hp Hv. unfold round_int.
  destruct (Z.leb_spec (Z.log2 (Z.abs v) + 1 - prec) 0) as [|He]; [reflexivity|].
  assert (Hpow : 0 < 2 ^ prec) by (apply Z.pow_pos_nonneg; lia).
  assert (Habs : Z.abs v = 2 ^ prec).
  { destruct (Z.eq_dec (Z.abs v) (2 ^ prec)) as [|Hne]; [assumption|].
    assert (Hlt : Z.abs v < 2 ^ prec) by lia.
    destruct (Z.eq_dec (Z.abs v) 0) as [H0 | H0].
    - rewrite H0 in He. simpl in He. lia.
    - apply Z.log2_lt_pow2 in Hlt; lia. }
  rewrite Habs, Z.log2_pow2 by lia.
  replace (prec + 1 - prec) with 1 by lia.
  replace (2 ^ prec) with (2 ^ (prec - 1) * 2 ^ 1)
    by (rewrite <- Z.pow_add_r by lia; f_equal; lia).
  rewrite Z.div_mul, Z.mod_mul by (simpl; lia).
  change (2 ^ (1 - 1)) with 1. simpl (1 <? 0). simpl (0 =? 1). simpl.
  change (2 ^ 1) with 2.
  replace (2 ^ (prec - 1) * 2) with (Z.abs v)
    by (rewrite Habs; replace prec with (prec - 1 + 1) at 1 by lia;
        rewrite Z.pow_add_r by lia; reflexivity).
  rewrite Z.mul_comm. apply Z.abs_sgn.
Qed.

Lemma casts_exact (v : Z) : Z.abs v <= 2 ^ 24 -> astype_float32 (to_float64 v) = v.
Proof.
  intros H. unfold astype_float32, to_float64.
  rewrite (round_int_exact 53 v); [apply round_int_exact; [lia | exact H] | lia |].
  transitivity (2 ^ 24); [exact H | apply Z.pow_le_mono_r; lia].
Qed.

Lemma vectorize_tweet_bounded (M : gmap N Z) (s : str) :
  (forall c v, M !! c = Some v -> Z.abs v <= 2 ^ 24) ->
  Forall (fun v => Z.abs v <= 2 ^ 24) (vectorize_tweet s M).
Proof.
  intros HM. unfold vectorize_tweet. apply Forall_map, Forall_forall. intros c _. simpl.
  destruct (M !! c) as [v|] eqn:E; [apply (HM c v E)|].
  simpl. apply Z.pow_nonneg. lia.
Qed.

Lemma padded_row (M : gmap N Z) (w : nat) (s : str) :
  (forall c v, M !! c = Some v -> Z.abs v <= 2 ^ 24) ->
  map astype_float32 (left_pad w (vectorize_tweet s M))
  = replicate (w - length s) 0 ++ vectorize_tweet s M.
Proof.
  intros HM. unfold left_pad. rewrite map_app, map_map. f_equal.
  - replace (length (vectorize_tweet s M)) with (length s)
      by (unfold vectorize_tweet; symmetry; apply length_map).
    generalize (w - length s)%nat. intros n. induction n as [|n IH]; [reflexivity|].
    simpl. rewrite IH. reflexivity.
  - pose proof (vectorize_tweet_bounded M s HM) as Hb.
    induction Hb as [|v l Hv _ IH]; simpl; [reflexivity|].
    rewrite IH, casts_exact by exact Hv. reflexivity.
Qed.

Lemma left_pad_length (w : nat) (q : list Z) :
  (length q <= w)%nat -> length (left_pad w q) = w.
Proof.
  intros H. unfold left_pad. rewrite length_app, length_replicate, length_map. lia.
Qed.

Lemma common_width_bounds (df : list (str * str)) (x y : str) :
  (x, y) ∈ df -> (length x <= common_width df)%nat /\ (length y <= common_width df)%nat.
Proof.
  intros Hin. unfold common_width. split.
  - etransitivity; [|apply Nat.le_max_l].
    apply max_list_elem_of_le.
    change (map ?f df) with (f <$> df). apply list_elem_of_fmap.
    exists (x, y). auto.
  - etransitivity; [|apply Nat.le_max_r].
    apply max_list_elem_of_le.
    change (map ?f df) with (f <$> df). apply list_elem_of_fmap.
    exists (x, y). auto.
Qed.

Lemma texts_fit (df : list (str * str)) (M : gmap N Z) (row : str * str) :
  row ∈ df ->
  (length (vectorize_tweet (fst row) M) <= common_width df)%nat
  /\ (length (vectorize_tweet (snd row) M) <= common_width df)%nat.
Proof.
  destruct row as [x y]. intros Hin. unfold vectorize_tweet. rewrite !length_map.
  apply common_width_bounds, Hin.
Qed.

(** On a non-empty table nothing raises, and the matrices are the padded
    and cast rows. *)
Lemma vectorize_dataset_returns (df : list (str * str)) (M : gmap N Z) :
  df <> [] ->
  vectorize_dataset df M
  = Returned
      (map (map astype_float32)
           (map (left_pad (common_width df))
                (map (fun row => vectorize_tweet (fst row) M) df)),
       map (map astype_float32)
           (map (left_pad (common_width df))
                (map (fun row => vectorize_tweet (snd row) M) df))).
Proof.
  intros Hne.
  set (Qv := map (fun row => vectorize_tweet (fst row) M) df).
  set (Av := map (fun row => vectorize_tweet (snd row) M) df).
  assert (HQw : max_list (map length Qv) = max_list (map (fun row => length (fst row)) df)).
  { unfold Qv. rewrite map_map. f_equal. apply map_ext. intros row.
    unfold vectorize_tweet. apply length_map. }
  assert (HAw : max_list (map length Av) = max_list (map (fun row => length (snd row)) df)).
  { unfold Av. rewrite map_map. f_equal. apply map_ext. intros row.
    unfold vectorize_tweet. apply length_map. }
  assert (HQs : np_stack (map (left_pad (common_width df)) Qv)
                = Returned (map (left_pad (common_width df)) Qv)).
  { apply (np_stack_even (common_width df)).
    - unfold Qv. destruct df; [congruence | discriminate].
    - unfold Qv. rewrite map_map. apply Forall_map, Forall_forall. intros row Hin.
      apply left_pad_length, (texts_fit df M row Hin). }
  assert (HAs : np_stack (map (left_pad (common_width df)) Av)
                = Returned (map (left_pad (common_width df)) Av)).
  { apply (np_stack_even (common_width df)).
    - unfold Av. destruct df; [congruence | discriminate].
    - unfold Av. rewrite map_map. apply Forall_map, Forall_forall. intros row Hin.
      apply left_pad_length, (texts_fit df M row Hin). }
  unfold vectorize_dataset. fold Qv Av.
  destruct Qv as [|q0 Qv'] eqn:EQ; [destruct df; [congruence | discriminate]|].
  destruct Av as [|a0 Av'] eqn:EA; [destruct df; [congruence | discriminate]|].
  destruct (py_max_len_length q0 Qv') as (lq & -> & Hlq).
  destruct (py_max_len_length a0 Av') as (la & -> & Hla).
  cbn [mbind outcome_bind].
  replace (Nat.max (length lq) (length la)) with (common_width df)
    by (unfold common_width; congruence).
  rewrite HQs. cbn [mbind outcome_bind]. rewrite HAs. reflexivity.
Qed.

(** C5: when the indices of the map are exactly representable in the
    numeric type of the matrices (at most 2^24 in absolute value, as every
    character index is), [vectorize_dataset] turns a non-empty table into
    two matrices with one row per row of the table; every row of both has
    the same width, the greatest text length over questions and answers
    together; and each row is a run of zeros followed by the vectorized
    text of its side, unchanged. *)
Theorem vectorize_dataset_padding (df : list (str * str)) (M : gmap N Z) :
  (forall c v, M !! c = Some v -> Z.abs v <= 2 ^ 24) ->
  df <> [] ->
  exists Q A,
    vectorize_dataset df M = Returned (Q, A)
    /\ length Q = length df /\ length A = length df
    /\ Forall (fun row => length row = common_width df) (Q ++ A)
    /\ forall i x y, df !! i = Some (x, y) ->
         Q !! i = Some (replicate (common_width df - length x) 0 ++ vectorize_tweet x M)
         /\ A !! i = Some (replicate (common_width df - length y) 0 ++ vectorize_tweet y M).
Proof.
  intros HM Hne.
  eexists _, _. split; [apply vectorize_dataset_returns, Hne|].
  split; [rewrite !length_map; reflexivity|].
  split; [rewrite !length_map; reflexivity|].
  split.
  - apply Forall_app. split.
    + rewrite !map_map. apply Forall_map, Forall_forall. intros row Hin.
      simpl. rewrite length_map. apply left_pad_length, (texts_fit df M row Hin).
    + rewrite !map_map. apply Forall_map, Forall_forall. intros row Hin.
      simpl. rewrite length_map. apply left_pad_length, (texts_fit df M row Hin).
  - intros i x y Hi. rewrite !map_map.
    change (map ?f df) with (f <$> df). rewrite !list_lookup_fmap, Hi. simpl.
    rewrite !padded_row by exact HM. split; reflexivity.
Qed.

(** Example for C5: a table of two exchanges under the character index of
    the alphabet. *)
Lemma vectorize_dataset_padding_witness :
  let df := [(py "ab", py "a"); ([], py "abc")] in
  let M := make_char2idx generate_alphabet in
  exists Q A,
    vectorize_dataset df M = Returned (Q, A)
    /\ length Q = length df /\ length A = length df
    /\ Forall (fun row => length row = common_width df) (Q ++ A)
    /\ forall i x y, df !! i = Some (x, y) ->
         Q !! i = Some (replicate (common_width df - length x) 0 ++ vectorize_tweet x M)
         /\ A !! i = Some (replicate (common_width df - length y) 0 ++ vectorize_tweet y M).
Proof.
  apply vectorize_dataset_padding.
  - intros c v H. apply make_char2idx_range in H as [H _].
    change (length generate_alphabet) with 53%nat in H. lia.
  - discriminate.
Defined.

(** ** The markers and the padding value *)




Lemma alphabet_index_bounded (c : N) (v : Z) :
  make_char2idx generate_alphabet !! c = Some v -> Z.abs v <= 2 ^ 24.
Proof.
  intros Hc. apply make_char2idx_range in Hc as [Hc _].
  change (length generate_alphabet) with 53%nat in Hc. lia.
Qed.



(** ** Language check and pairing *)

(** The tag that [check_language] answers. *)
Lemma check_language_total `{Detector} (tweet : str) :
  check_language tweet
  = Returned (match detect (langdetect_input tweet) with
              | Returned tag => tag
              | Raised _ => py "en"
              end).
Proof. unfold check_language. destruct (detect _); reflexivity. Qed.

(** C9: when the detector raises on the text it is given,
    [check_language] answers 'en'; and whatever the detector does,
    [check_language] returns a tag and raises nothing. *)
Theorem check_language_fail_open `{Detector} (tweet : str) (e : exn) :
  detect (langdetect_input tweet) = Raised e ->
  check_language tweet = Returned (py "en")
  /\ forall other : str, exists tag, check_language other = Returned tag.
Proof.
  intros H0. split.
  - rewrite check_language_total, H0. reflexivity.
  - intros other. rewrite check_language_total. eexists. reflexivity.
Qed.

(** Example for C9: a detector that fails on the empty text. *)
Lemma check_language_fail_open_witness :
  @detect fussy_detector (langdetect_input []) = Raised LangDetectException
  /\ @check_language fussy_detector [] = Returned (py "en")
  /\ forall other : str, exists tag, @check_language fussy_detector other = Returned tag.
Proof.
  split; [reflexivity|].
  apply (@check_language_fail_open fussy_detector [] LangDetectException).
  reflexivity.
Defined.

Lemma comprehension_check_language `{Detector} (l : list str) :
  comprehension check_language l
  = Returned (map (fun tweet => match detect (langdetect_input tweet) with
                                | Returned tag => tag
                                | Raised _ => py "en"
                                end) l).
Proof.
  induction l as [|t l IH]; [reflexivity|].
  cbn [comprehension]. rewrite check_language_total, IH. reflexivity.
Qed.

Lemma merge_elem_of (left right : list Message) (q a : Message) :
  (q, a) ∈ merge left right ->
  q ∈ left /\ a ∈ right /\ in_response_to_tweet_id a = Some (tweet_id q).
Proof.
  unfold merge. intros Hin. apply list_elem_of_In, in_flat_map in Hin as (q' & Hq & Hin).
  apply in_map_iff in Hin as (a' & [= <- <-] & Ha).
  apply list_elem_of_In, list_elem_of_filter in Ha as [Hr Ha].
  split; [apply list_elem_of_In, Hq | split; assumption].
Qed.


(** C10: when no exchange survives the filters, [vectorize_dataset] raises
    [ValueError] on the empty table and so does [get_amazon_dataset]: no
    matrices are returned. *)
Theorem empty_result_aborts `{Unicode} `{Detector} `{Shuffler}
    (df : list Message) (val_size test_size : spec_float) (seed : Z) :
  organize_QA_dataframe df generate_alphabet = Returned [] ->
  vectorize_dataset [] (make_char2idx generate_alphabet) = Raised ValueError
  /\ get_amazon_dataset df val_size test_size seed = Raised ValueError.
Proof.
  intros H2. split; [reflexivity|].
  unfold get_amazon_dataset. rewrite H2. reflexivity.
Qed.

(** Example for C10: a table whose only conversation is answered by
    another company. *)
Lemma empty_result_aborts_witness :
  @organize_QA_dataframe ascii_tables fussy_detector other_company_table generate_alphabet
    = Returned []
  /\ vectorize_dataset [] (make_char2idx generate_alphabet) = Raised ValueError
  /\ @get_amazon_dataset ascii_tables fussy_detector in_place other_company_table
       (decimal 1 10) (decimal 1 10) 42 = Raised ValueError.
Proof.
  split; [vm_compute; reflexivity|].
  apply (@empty_result_aborts ascii_tables fussy_detector in_place).
  vm_compute. reflexivity.
Defined.

(** ** The three-way split *)

Lemma take_rows_from {A : Type} (pre M : list A) :
  omap (fun i => (pre ++ M) !! i) (seq (length pre) (length M)) = M.
Proof.
  revert pre. induction M as [|x M IH]; intros pre; [reflexivity|].
  simpl. rewrite lookup_app_r, Nat.sub_diag by lia. simpl. f_equal.
  specialize (IH (pre ++ [x])). rewrite <- app_assoc, length_app in IH. simpl in IH.
  rewrite Nat.add_1_r in IH. exact IH.
Qed.

Lemma take_rows_Permutation {A : Type} (indices : list nat) (M : list A) :
  Permutation indices (seq 0 (length M)) -> Permutation (take_rows indices M) M.
Proof.
  intros Hp. unfold take_rows. rewrite Hp.
  pose proof (take_rows_from [] M) as E. simpl in E. rewrite E. reflexivity.
Qed.

Lemma slice_within {A : Type} (M : list A) (lo hi : Z) :
  0 <= lo <= hi -> hi <= Z.of_nat (length M) ->
  slice M lo hi = take (Z.to_nat hi - Z.to_nat lo) (drop (Z.to_nat lo) M).
Proof.
  intros H1 H2. unfold slice, slice_index.
  destruct (Z.ltb_spec lo 0), (Z.ltb_spec hi 0); try lia.
  rewrite !Z.min_l by lia. reflexivity.
Qed.

Lemma slice_from_within {A : Type} (M : list A) (lo : Z) :
  0 <= lo <= Z.of_nat (length M) -> slice_from M lo = drop (Z.to_nat lo) M.
Proof.
  intros H1. unfold slice_from, slice_index.
  destruct (Z.ltb_spec lo 0); try lia.
  rewrite Z.min_l by lia. reflexivity.
Qed.

Lemma three_parts {A : Type} (M : list A) (a b : nat) :
  (a <= b)%nat -> take a M ++ take (b - a) (drop a M) ++ drop b M = M.
Proof.
  intros H. rewrite <- (take_drop a M) at 4. f_equal.
  rewrite <- (take_drop (b - a) (drop a M)) at 2. f_equal.
  rewrite drop_drop. f_equal. lia.
Qed.

(** Counterexample for C7: for ten rows and the fractions (0.5, 0.3) the
    code cuts the training part after one row, while
    floor(N * (1 - val_frac - test_frac)) is 2, both for the decimal
    fractions and for the doubles that stand for them.  The sum
    0.5 + 0.3 is rounded up to 0x1.999999999999ap-1, above 0.8; one minus
    it is 0x1.9999999999998p-3, below 0.2; ten times that is
    0x1.ffffffffffffep+0, below 2, which [int] truncates to 1. *)
Lemma train_cutoff_below_floor :
  let val_size := decimal 5 10 in
  let test_size := decimal 3 10 in
  b64_add val_size test_size = S754_finite false 0x1999999999999a (-53)
  /\ b64_sub (float_of_int 1) (b64_add val_size test_size)
     = S754_finite false 0x19999999999998 (-55)
  /\ b64_mul (float_of_int 10) (b64_sub (float_of_int 1) (b64_add val_size test_size))
     = S754_finite false 0x1ffffffffffffe (-52)
  /\ train_val_cutoff 10 val_size test_size = Returned 1
  /\ spec_train_end 10 (5 # 10) (3 # 10) = 2
  /\ spec_train_end 10 (float_value val_size) (float_value test_size) = 2
  /\ exists sp,
       @train_test_val_split in_place _ (numbered_rows 10) (numbered_rows 10)
         val_size test_size 0 = Returned sp
       /\ Q_train sp = [[0]].
Proof.
  repeat (split; [vm_compute; reflexivity|]).
  eexists. split; vm_compute; reflexivity.
Qed.

(** C7, amended: [train_test_val_split] shuffles the rows of both matrices
    by one permutation and computes, in double precision, the cutoffs
    train_end = int(N * (1 - (val_frac + test_frac))) and
    val_end = int(N * (1 - test_frac)).  Whenever
    0 <= train_end <= val_end <= N it returns the shuffled rows
    [0, train_end) as train, [train_end, val_end) as validation and
    [val_end, N) as test, so that the three parts together hold every
    input row exactly once; for the fractions (0.1, 0.1) and N = 100 the
    parts have 80, 10 and 10 rows. *)
Theorem train_test_val_split_partition `{Shuffler} {R : Type}
    (Q A : list R) (val_size test_size : spec_float) (seed : Z) (a b : Z) :
  length Q = length A ->
  train_val_cutoff (length Q) val_size test_size = Returned a ->
  val_test_cutoff (length Q) test_size = Returned b ->
  0 <= a <= b -> b <= Z.of_nat (length Q) ->
  exists Q' A' sp,
    sklearn_shuffle Q A seed = Returned (Q', A')
    /\ Permutation Q' Q /\ Permutation A' A
    /\ train_test_val_split Q A val_size test_size seed = Returned sp
    /\ Q_train sp = take (Z.to_nat a) Q'
    /\ Q_val sp = take (Z.to_nat b - Z.to_nat a) (drop (Z.to_nat a) Q')
    /\ Q_test sp = drop (Z.to_nat b) Q'
    /\ A_train sp = take (Z.to_nat a) A'
    /\ A_val sp = take (Z.to_nat b - Z.to_nat a) (drop (Z.to_nat a) A')
    /\ A_test sp = drop (Z.to_nat b) A'
    /\ Permutation (Q_train sp ++ Q_val sp ++ Q_test sp) Q
    /\ Permutation (A_train sp ++ A_val sp ++ A_test sp) A
    /\ (length Q = 100%nat -> val_size = decimal 1 10 -> test_size = decimal 1 10 ->
        length (Q_train sp) = 80%nat /\ length (Q_val sp) = 10%nat
        /\ length (Q_test sp) = 10%nat).
Proof.
  intros Hlen Ha Hb Hab HbN.
  set (idx := shuffle_indices seed (length Q)).
  assert (HpQ : Permutation (take_rows idx Q) Q)
    by apply take_rows_Permutation, shuffle_indices_perm.
  assert (HpA : Permutation (take_rows idx A) A).
  { apply take_rows_Permutation. rewrite <- Hlen. apply shuffle_indices_perm. }
  assert (HlQ : length (take_rows idx Q) = length Q) by (rewrite HpQ; reflexivity).
  assert (HlA : length (take_rows idx A) = length Q) by (rewrite HpA; auto).
  exists (take_rows idx Q), (take_rows idx A).
  assert (Hsh : sklearn_shuffle Q A seed = Returned (take_rows idx Q, take_rows idx A)).
  { unfold sklearn_shuffle. rewrite <- Hlen, Nat.eqb_refl. reflexivity. }
  eexists. split; [exact Hsh|]. split; [exact HpQ|]. split; [exact HpA|].
  split.
  { unfold train_test_val_split. rewrite Hsh. cbn [mbind outcome_bind fst snd].
    rewrite HlQ, Ha. cbn [mbind outcome_bind]. rewrite Hb. reflexivity. }
  cbn [Q_train Q_val Q_test A_train A_val A_test].
  rewrite !slice_within, !slice_from_within by lia.
  change (Z.to_nat 0) with 0%nat. rewrite !Nat.sub_0_r. cbn [drop].
  repeat (split; [reflexivity|]).
  split; [rewrite three_parts by lia; exact HpQ|].
  split; [rewrite three_parts by lia; exact HpA|].
  intros HN -> ->. rewrite HN in Ha, Hb.
  vm_compute in Ha, Hb. injection Ha as <-. injection Hb as <-.
  rewrite !length_take, !length_drop, HlQ, HN. vm_compute. auto.
Qed.

(** Example for C7: a hundred rows, fractions (0.1, 0.1). *)
Lemma train_test_val_split_partition_witness :
  exists sp,
    @train_test_val_split in_place _ (numbered_rows 100) (numbered_rows 100)
      (decimal 1 10) (decimal 1 10) 42 = Returned sp
    /\ length (Q_train sp) = 80%nat /\ length (Q_val sp) = 10%nat
    /\ length (Q_test sp) = 10%nat
    /\ Permutation (Q_train sp ++ Q_val sp ++ Q_test sp) (numbered_rows 100).
Proof.
  destruct (@train_test_val_split_partition in_place _
              (numbered_rows 100) (numbered_rows 100)
              (decimal 1 10) (decimal 1 10) 42 80 90)
    as (Q' & A' & sp & _ & _ & _ & Hsp & _ & _ & _ & _ & _ & _ & HpQ & _ & Hn).
  - reflexivity.
  - vm_compute. reflexivity.
  - vm_compute. reflexivity.
  - lia.
  - vm_compute. discriminate.
  - exists sp. split; [exact Hsp|].
    destruct Hn as (H1 & H2 & H3); [reflexivity | reflexivity | reflexivity |].
    auto.
Defined.

(** ** The matcher *)

Lemma star_class_consumes p (s : str) (k : str -> option str) (x : str) :
  star_class p s k = Some x ->
  exists s', k s' = Some x /\ (length s' <= length s)%nat.
Proof.
  induction s as [|c r IH]; simpl.
  - intros H. exists []. auto.
  - destruct (p c).
    + destruct (star_class p r k) as [y|] eqn:E.
      * intros [= ->]. destruct (IH eq_refl) as (s' & Hk & Hl).
        exists s'. split; [exact Hk | simpl; lia].
      * intros H. exists (c :: r). auto.
    + intros H. exists (c :: r). auto.
Qed.

(** A match takes at least [min_len r] characters. *)
Lemma rmatch_consumes (r : regex) (s : str) (k : str -> option str) (x : str) :
  rmatch r s k = Some x ->
  exists s', k s' = Some x /\ (length s' + min_len r <= length s)%nat.
Proof.
  revert s k. induction r as [c | p | r1 IH1 r2 IH2 | r1 IH1 r2 IH2 | r1 IH1 | p | p |];
    intros s k; simpl.
  - destruct s as [|y s']; [discriminate|]. destruct (y =? c)%N; [|discriminate].
    intros H. exists s'. split; [exact H | simpl; lia].
  - destruct s as [|y s']; [discriminate|]. destruct (p y); [|discriminate].
    intros H. exists s'. split; [exact H | simpl; lia].
  - intros H. apply IH1 in H as (s1 & H & Hl1). apply IH2 in H as (s2 & H & Hl2).
    exists s2. split; [exact H | lia].
  - destruct (rmatch r1 s k) as [y|] eqn:E.
    + intros [= ->]. apply IH1 in E as (s' & H & Hl). exists s'. split; [exact H | lia].
    + intros H. apply IH2 in H as (s' & H & Hl). exists s'. split; [exact H | lia].
  - destruct (rmatch r1 s k) as [y|] eqn:E.
    + intros [= ->]. apply IH1 in E as (s' & H & Hl). exists s'. split; [exact H | lia].
    + intros H. exists s. split; [exact H | lia].
  - intros H. apply star_class_consumes in H as (s' & H & Hl).
    exists s'. split; [exact H | lia].
  - destruct s as [|y t]; [discriminate|]. destruct (p y); [|discriminate].
    intros H. apply star_class_consumes in H as (s' & H & Hl).
    exists s'. split; [exact H | simpl; lia].
  - intros H. exists s. split; [|lia].
    destruct s as [|y [|z t]]; [exact H | | discriminate].
    destruct (y =? 10)%N; [exact H | discriminate].
Qed.

(** For a pattern that cannot match the empty string, a match at the head
    is a success of the matcher. *)
Lemma matches_at_rmatch (r : regex) (s : str) :
  (0 < min_len r)%nat ->
  matches_at (match_len r) s = succeeds (rmatch r s Some).
Proof.
  intros Hpos. unfold matches_at, match_len.
  destruct (rmatch r s Some) as [rest|] eqn:E; [|reflexivity].
  apply rmatch_consumes in E as (s' & [= ->] & Hl).
  destruct (length s - length rest)%nat eqn:En; [lia | reflexivity].
Qed.

(** None of the patterns of the program matches the empty string. *)
Lemma patterns_take_a_character `{Unicode} :
  Forall (fun r => forall s n, match_len r s = Some n -> (0 < n)%nat)
         [reference_re; signature_re; part_re; url_re; spaces_re].
Proof.
  repeat (apply Forall_cons; split;
    [intros s n; unfold match_len;
     destruct (rmatch _ s Some) as [rest|] eqn:E; [|discriminate];
     apply rmatch_consumes in E as (s' & [= ->] & Hl); cbn in Hl;
     intros [= <-]; lia|]).
  apply Forall_nil. trivial.
Qed.

Lemma rmatch_lit_then (w : str) (r : regex) (s : str) (k : str -> option str) :
  rmatch (lit_then w r) s k
  = if starts_with w s then rmatch r (drop (length w) s) k else None.
Proof.
  revert s. induction w as [|a w IH]; intros s; simpl; [reflexivity|].
  destruct s as [|c s']; [reflexivity|].
  destruct (c =? a)%N; simpl; [apply IH | reflexivity].
Qed.

Lemma lit_before_app (a b s : str) :
  lit_before (a ++ b) s = starts_with a s && lit_before b (drop (length a) s).
Proof.
  revert s. induction a as [|x a IH]; intros s; simpl; [reflexivity|].
  destruct s as [|c s']; [destruct b; reflexivity|].
  rewrite IH. apply andb_assoc.
Qed.

Lemma succeeds_or_else {A : Type} (a b : option A) :
  succeeds (match a with Some r => Some r | None => b end) = succeeds a || succeeds b.
Proof. destruct a; reflexivity. Qed.

Lemma succeeds_lit_plus (w s : str) :
  succeeds (rmatch (lit_then w (Plus non_space)) s Some) = lit_before w s.
Proof.
  revert s. induction w as [|a w IH]; intros s.
  - destruct s as [|d s']; simpl; [reflexivity|].
    destruct (non_space d); [|reflexivity]. rewrite star_class_Some. reflexivity.
  - destruct s as [|c s']; simpl; [reflexivity|].
    destruct (c =? a)%N; simpl; [apply IH | reflexivity].
Qed.

(** ** URLs *)

Lemma url_match_start (s : str) : matches_at (match_len url_re) s = url_start s.
Proof.
  rewrite matches_at_rmatch by (vm_compute; lia).
  unfold url_re, url_start. cbn [rmatch].
  rewrite succeeds_or_else, succeeds_lit_plus. f_equal.
  rewrite rmatch_lit_then.
  change (py "https://") with (py "http" ++ py "s://").
  change (py "http://") with (py "http" ++ py "://").
  rewrite !lit_before_app.
  destruct (starts_with (py "http") s); [|reflexivity].
  cbn [rmatch andb]. rewrite succeeds_or_else, succeeds_lit_plus. f_equal.
  destruct (drop (length (py "http")) s) as [|x u]; [reflexivity|].
  change (lit_before (py "s://") (x :: u))
    with ((x =? 115)%N && lit_before (py "://") u).
  destruct (x =? 115)%N; [apply succeeds_lit_plus | reflexivity].
Qed.

(** Literals of the source, spelled out as code points. *)
Ltac eval_py :=
  repeat match goal with
  | |- context [py ?s] =>
      let v := eval vm_compute in (py s) in change (py s) with v
  | H : context [py ?s] |- _ =>
      let v := eval vm_compute in (py s) in change (py s) with v in H
  end.

Lemma lit_before_cons (a c : N) (w s : str) :
  lit_before (a :: w) (c :: s) = (c =? a)%N && lit_before w s.
Proof. reflexivity. Qed.

Lemma url_start_head (c : N) (r : str) :
  url_start (c :: r) = true -> c = 104%N \/ c = 119%N.
Proof.
  unfold url_start. eval_py. cbn [lit_before].
  destruct (N.eqb_spec c 104); [auto|]. destruct (N.eqb_spec c 119); [auto|].
  discriminate.
Qed.

Lemma url_start_not_mark (r : str) : url_start (url_mark :: r) = false.
Proof.
  destruct (url_start (url_mark :: r)) eqn:E; [|reflexivity].
  apply url_start_head in E as [E | E]; discriminate E.
Qed.

Lemma url_start_not_blank (r : str) : url_start (32%N :: r) = false.
Proof.
  destruct (url_start (32%N :: r)) eqn:E; [|reflexivity].
  apply url_start_head in E as [E | E]; discriminate E.
Qed.

Lemma url_start_non_space (c : N) (r : str) :
  url_start (c :: r) = true -> non_space c = true.
Proof. intros [-> | ->]%url_start_head; reflexivity. Qed.

(** What follows a literal word in the anonymized text followed it in the
    original text. *)
Lemma lit_before_anonymized (w s : str) :
  url_mark ∉ w ->
  lit_before w (sub_all (match_len url_re) [url_mark] s) = true ->
  lit_before w s = true.
Proof.
  unfold sub_all. revert s. induction w as [|a w IH]; intros s Hw.
  - destruct s as [|x r]; [discriminate|]. cbn [sub_from].
    destruct (match_len url_re (x :: r)) as [[|n]|] eqn:E; try (intros H; exact H).
    intros _. apply (url_start_non_space x r).
    rewrite <- url_match_start. unfold matches_at. rewrite E. reflexivity.
  - apply not_elem_of_cons in Hw as [Ha Hw].
    destruct s as [|x r]; [discriminate|]. cbn [sub_from].
    destruct (match_len url_re (x :: r)) as [[|n]|] eqn:E.
    + cbn [lit_before app]. intros [-> H]%andb_prop. apply (IH r Hw) in H. rewrite H. reflexivity.
    + cbn [lit_before app]. intros [H _]%andb_prop. apply N.eqb_eq in H. congruence.
    + cbn [lit_before app]. intros [-> H]%andb_prop. apply (IH r Hw) in H. rewrite H. reflexivity.
Qed.

Lemma url_start_anonymized (c : N) (r : str) :
  url_start (c :: r) = false ->
  url_start (c :: sub_all (match_len url_re) [url_mark] r) = false.
Proof.
  intros H. destruct (url_start (c :: sub_all _ _ r)) eqn:E; [|reflexivity].
  rewrite <- H. symmetry. unfold url_start in *.
  eval_py. rewrite !lit_before_cons in *.
  repeat match type of E with
  | (_ || _ = true) => apply orb_prop in E as [E | E]
  end;
  apply andb_prop in E as [-> E];
  apply lit_before_anonymized in E; try by_eval; rewrite E;
  rewrite ?orb_true_r; reflexivity.
Qed.

(** After the URL step no URL is left. *)
Lemma url_free_sub_from (s : str) (k : nat) :
  matches_somewhere (match_len url_re)
    (sub_from (match_len url_re) [url_mark] k s) = false.
Proof.
  revert k. induction s as [|c r IH]; intros k; [reflexivity|].
  cbn [sub_from]. destruct k as [|k]; [|apply IH].
  destruct (match_len url_re (c :: r)) as [[|n]|] eqn:E.
  - cbn [matches_somewhere]. rewrite IH, orb_false_r, url_match_start.
    apply url_start_anonymized. rewrite <- url_match_start.
    unfold matches_at. rewrite E. reflexivity.
  - cbn [app matches_somewhere]. rewrite IH, orb_false_r, url_match_start.
    apply url_start_not_mark.
  - cbn [matches_somewhere]. rewrite IH, orb_false_r, url_match_start.
    apply url_start_anonymized. rewrite <- url_match_start.
    unfold matches_at. rewrite E. reflexivity.
Qed.

Lemma lit_before_squeezed (w s : str) :
  32%N ∉ w -> lit_before w (squeeze false s) = true -> lit_before w s = true.
Proof.
  revert s. induction w as [|a w IH]; intros s Hw.
  - destruct s as [|x r]; [discriminate|]. cbn [squeeze].
    destruct (is_blank x) eqn:Ex; [discriminate|]. intros H. exact H.
  - apply not_elem_of_cons in Hw as [Ha Hw].
    destruct s as [|x r]; [discriminate|]. cbn [squeeze].
    destruct (is_blank x) eqn:Ex.
    + cbn [lit_before]. intros [H _]%andb_prop. apply N.eqb_eq in H. congruence.
    + cbn [lit_before]. intros [-> H]%andb_prop. apply (IH r Hw) in H. rewrite H. reflexivity.
Qed.

Lemma url_start_squeezed (c : N) (r : str) :
  url_start (c :: r) = false -> url_start (c :: squeeze false r) = false.
Proof.
  intros H. destruct (url_start (c :: squeeze false r)) eqn:E; [|reflexivity].
  rewrite <- H. symmetry. unfold url_start in *.
  eval_py. rewrite !lit_before_cons in *.
  repeat match type of E with
  | (_ || _ = true) => apply orb_prop in E as [E | E]
  end;
  apply andb_prop in E as [-> E];
  apply lit_before_squeezed in E; try by_eval; rewrite E;
  rewrite ?orb_true_r; reflexivity.
Qed.

Lemma url_free_squeeze (b : bool) (s : str) :
  matches_somewhere (match_len url_re) s = false ->
  matches_somewhere (match_len url_re) (squeeze b s) = false.
Proof.
  revert b. induction s as [|c r IH]; intros b; [reflexivity|].
  cbn [matches_somewhere squeeze]. intros [Hc Hr]%orb_false_elim.
  destruct (is_blank c) eqn:Ec.
  - destruct b; [apply IH, Hr|].
    cbn [matches_somewhere]. rewrite (IH true Hr), orb_false_r, url_match_start.
    apply url_start_not_blank.
  - cbn [matches_somewhere]. rewrite (IH false Hr), orb_false_r, url_match_start.
    apply url_start_squeezed. rewrite <- url_match_start. exact Hc.
Qed.

Lemma lit_before_longer (w s t : str) :
  lit_before w s = true -> lit_before w (s ++ t) = true.
Proof.
  revert s. induction w as [|a w IH]; intros s.
  - destruct s; [discriminate | intros H; exact H].
  - destruct s as [|x r]; [discriminate|]. simpl.
    intros [-> H]%andb_prop. apply IH, H.
Qed.

Lemma url_start_longer (s t : str) : url_start s = true -> url_start (s ++ t) = true.
Proof.
  unfold url_start. intros H.
  repeat match type of H with
  | (_ || _ = true) => apply orb_prop in H as [H | H]
  end;
  apply (lit_before_longer _ _ t) in H; rewrite H, ?orb_true_r; reflexivity.
Qed.

Lemma url_free_app (a b : str) :
  matches_somewhere (match_len url_re) (a ++ b) = false ->
  matches_somewhere (match_len url_re) a = false
  /\ matches_somewhere (match_len url_re) b = false.
Proof.
  induction a as [|x a IH]; [simpl; auto|].
  cbn [app matches_somewhere]. intros [Hx H]%orb_false_elim.
  destruct (IH H) as [Ha Hb]. split; [|exact Hb].
  rewrite Ha, orb_false_r. rewrite url_match_start in *.
  destruct (url_start (x :: a)) eqn:E; [|reflexivity].
  apply (url_start_longer _ b) in E. simpl in E. congruence.
Qed.

Lemma url_free_strip (s : str) :
  matches_somewhere (match_len url_re) s = false ->
  matches_somewhere (match_len url_re) (strip s) = false.
Proof.
  destruct (strip_decomp s) as (w1 & w2 & Hs & _). intros H. rewrite Hs in H.
  apply url_free_app in H as [_ H]. apply url_free_app in H as [H _]. exact H.
Qed.

Lemma clean_text_url_free `{Unicode} (s : str) :
  matches_somewhere (match_len url_re) (clean_text s) = false.
Proof.
  unfold clean_text. apply url_free_strip.
  rewrite collapse_spaces_squeeze. apply url_free_squeeze, url_free_sub_from.
Qed.

(** ** clean_text, applied twice *)

Lemma str_replace_char (c d : N) (s : str) :
  str_replace [c] [d] s = map (replace_char c d) s.
Proof.
  unfold str_replace, sub_all, replace_char.
  induction s as [|x r IH]; [reflexivity|].
  cbn [sub_from map].
  replace (lit_match [c] (x :: r)) with (if (x =? c)%N then Some 1%nat else None)
    by (unfold lit_match; cbn [starts_with length]; rewrite andb_true_r; reflexivity).
  destruct (x =? c)%N; cbn [app]; rewrite IH; reflexivity.
Qed.

Lemma normalize_characters_map (s : str) :
  normalize_characters s = map rewrite_character s.
Proof.
  unfold normalize_characters. eval_py. cbv zeta.
  rewrite !str_replace_char, !map_map. reflexivity.
Qed.

Lemma replace_char_other (old new c : N) : c <> old -> replace_char old new c = c.
Proof. intros H. unfold replace_char. apply N.eqb_neq in H. rewrite H. reflexivity. Qed.

Lemma rewrite_character_fixed (x : N) :
  x ∉ rewritten_characters -> rewrite_character x = x.
Proof.
  unfold rewritten_characters. intros Hx. rewrite !not_elem_of_cons in Hx.
  unfold rewrite_character.
  repeat match goal with
  | |- context [replace_char ?old ?new x] =>
      rewrite (replace_char_other old new x) by tauto
  end.
  reflexivity.
Qed.

Lemma rewrite_character_settled (x : N) : rewrite_character x ∉ rewritten_characters.
Proof.
  destruct (decide (x ∈ rewritten_characters)) as [Hin | Hout].
  - unfold rewritten_characters in Hin.
    repeat (apply elem_of_cons in Hin as [-> | Hin]; [by_eval|]).
    inversion Hin.
  - rewrite rewrite_character_fixed by exact Hout. exact Hout.
Qed.

Lemma normalize_characters_fixed (t : str) :
  Forall (fun c => c ∉ rewritten_characters) t -> normalize_characters t = t.
Proof.
  intros H. rewrite normalize_characters_map.
  induction H as [|x t Hx _ IH]; [reflexivity|].
  simpl. rewrite IH, rewrite_character_fixed by exact Hx. reflexivity.
Qed.

Lemma str_replace_Forall (P : N -> Prop) (old new s : str) :
  Forall P new -> Forall P s -> Forall P (str_replace old new s).
Proof. intros Hn Hs. apply sub_all_Forall; assumption. Qed.

Lemma re_sub_Forall (P : N -> Prop) (r : regex) (repl s : str) :
  Forall P repl -> Forall P s -> Forall P (re_sub r repl s).
Proof. intros Hn Hs. apply sub_all_Forall; assumption. Qed.

(** No character that the first steps rewrite survives [clean_text]. *)
Lemma clean_text_settled `{Unicode} (s : str) :
  Forall (fun c => c ∉ rewritten_characters) (clean_text s).
Proof.
  unfold clean_text, clean_removals.
  apply strip_Forall, collapse_spaces_Forall.
  repeat match goal with
  | |- Forall _ (re_sub _ _ _) => apply re_sub_Forall; [by_eval|]
  | |- Forall _ (str_replace _ _ _) => apply str_replace_Forall; [by_eval|]
  end.
  rewrite normalize_characters_map. apply Forall_map, Forall_forall.
  intros x _. apply rewrite_character_settled.
Qed.

Lemma starts_with_elem_of (old v : str) (c : N) :
  starts_with old v = true -> c ∈ old -> c ∈ v.
Proof.
  revert v. induction old as [|a old IH]; intros v H Hin; [inversion Hin|].
  destruct v as [|x v]; [discriminate|]. simpl in H.
  apply andb_prop in H as [Hx H]. apply N.eqb_eq in Hx. subst x.
  apply elem_of_cons in Hin as [-> | Hin]; [left | right; apply (IH v H Hin)].
Qed.

(** A literal with a character that the text lacks occurs nowhere in it. *)
Lemma lit_match_absent (old t : str) (c : N) :
  c ∈ old -> c ∉ t -> matches_somewhere (lit_match old) t = false.
Proof.
  intros Hold. induction t as [|x t IH]; intros Ht; [reflexivity|].
  cbn [matches_somewhere]. rewrite IH by (intros Hin; apply Ht; right; exact Hin).
  rewrite orb_false_r. unfold matches_at, lit_match.
  destruct (starts_with old (x :: t)) eqn:E; [|reflexivity].
  exfalso. apply Ht. apply (starts_with_elem_of old _ c E Hold).
Qed.

Lemma str_replace_absent (old new t : str) (c : N) :
  c ∈ old -> c ∉ t -> str_replace old new t = t.
Proof. intros Ho Ht. apply sub_all_no_match, (lit_match_absent old t c Ho Ht). Qed.

Lemma str_replace_no_match (old new t : str) :
  matches_somewhere (lit_match old) t = false -> str_replace old new t = t.
Proof. apply sub_all_no_match. Qed.

Lemma re_sub_no_match (r : regex) (repl t : str) :
  matches_somewhere (match_len r) t = false -> re_sub r repl t = t.
Proof. apply sub_all_no_match. Qed.

(** Without anything to rewrite or to remove, the removal steps change
    nothing. *)
Lemma clean_removals_fixed `{Unicode} (t : str) :
  Forall (fun c => c ∉ rewritten_characters) t ->
  has_removable t = false -> clean_removals t = t.
Proof.
  intros Hset Hrem. unfold has_removable in Hrem. cbn [existsb] in Hrem.
  repeat (apply orb_false_elim in Hrem as [? Hrem]).
  assert (H59 : 59%N ∉ t).
  { rewrite Forall_forall in Hset. intros Hin. apply (Hset _ Hin). by_eval. }
  assert (Hzwj : 0x200D%N ∉ t).
  { rewrite Forall_forall in Hset. intros Hin. apply (Hset _ Hin). by_eval. }
  unfold clean_removals. rewrite (normalize_characters_fixed t Hset).
  rewrite (str_replace_no_match (py "\{") _ t) by assumption.
  rewrite (str_replace_no_match (py "\}") _ t) by assumption.
  rewrite (str_replace_no_match (py "\[") _ t) by assumption.
  rewrite (str_replace_no_match (py "\]") _ t) by assumption.
  rewrite (str_replace_absent (py "&amp;") _ t 59) by (by_eval || assumption).
  rewrite (str_replace_no_match (py "@amazonhelp") _ t) by assumption.
  rewrite (re_sub_no_match reference_re _ t) by assumption.
  rewrite (re_sub_no_match signature_re _ t) by assumption.
  rewrite (str_replace_absent [0x200D; 0x2642; 0xFE0F]%N _ t 0x200D)
    by (by_eval || assumption).
  rewrite (str_replace_absent [0x200D; 0x2640; 0xFE0F]%N _ t 0x200D)
    by (by_eval || assumption).
  apply re_sub_no_match. assumption.
Qed.

(** Once cleaned, a text with nothing left to remove is a fixed point. *)
Lemma clean_text_fixed_when_settled `{Unicode} (s : str) :
  has_removable (clean_text s) = false ->
  clean_text (clean_text s) = clean_text s.
Proof.
  intros Hrem. set (t := clean_text s) in *.
  assert (Ht : t = strip (collapse_spaces
                 (re_sub url_re [url_mark] (clean_removals s)))) by reflexivity.
  unfold clean_text at 1.
  rewrite (clean_removals_fixed t (clean_text_settled s) Hrem).
  unfold re_sub. rewrite (sub_all_no_match _ _ t (clean_text_url_free s)).
  rewrite collapse_spaces_fixed
    by (rewrite Ht; apply strip_no_double, collapse_spaces_no_double).
  apply strip_fixed. rewrite Ht. apply strip_trimmed.
Qed.

(** ** A second pass that acts shortens the text *)

Lemma mass_app (a b : str) : mass (a ++ b) = (mass a + mass b)%nat.
Proof. induction a as [|x a IH]; simpl; [reflexivity | rewrite IH; lia]. Qed.

Lemma mass_take_drop (k : nat) (s : str) : mass s = (mass (take k s) + mass (drop k s))%nat.
Proof. rewrite <- mass_app, take_drop. reflexivity. Qed.

Lemma weight_pos (c : N) : (2 <= weight c)%nat.
Proof. unfold weight. destruct (_ || _); lia. Qed.

Section Mass.
Variable m : str -> option nat.
Variable repl : str.
Variable gain : nat.
Hypothesis match_heavier : forall c r n,
  m (c :: r) = Some (S n) -> (mass repl + gain <= mass (take (S n) (c :: r)))%nat.

Lemma sub_from_mass (s : str) (k : nat) :
  (mass (sub_from m repl k s) <= mass (drop k s))%nat.
Proof.
  revert k. induction s as [|c r IH]; intros k; [destruct k; simpl; lia|].
  cbn [sub_from]. destruct k as [|k]; [|apply IH].
  rewrite drop_0.
  destruct (m (c :: r)) as [[|n]|] eqn:E.
  - specialize (IH 0%nat). rewrite drop_0 in IH. cbn [mass]. lia.
  - rewrite mass_app. specialize (IH n).
    pose proof (match_heavier c r n E) as Hm.
    rewrite (mass_take_drop (S n) (c :: r)).
    change (drop (S n) (c :: r)) with (drop n r). lia.
  - specialize (IH 0%nat). rewrite drop_0 in IH. cbn [mass]. lia.
Qed.

Lemma sub_all_mass (s : str) : (mass (sub_all m repl s) <= mass s)%nat.
Proof. pose proof (sub_from_mass s 0) as Hs. rewrite drop_0 in Hs. exact Hs. Qed.

Lemma sub_all_mass_gain (s : str) :
  matches_somewhere m s = true -> (mass (sub_all m repl s) + gain <= mass s)%nat.
Proof.
  unfold sub_all. induction s as [|c r IH]; [discriminate|].
  cbn [matches_somewhere sub_from]. unfold matches_at.
  destruct (m (c :: r)) as [[|n]|] eqn:E; cbn [orb].
  - intros Hr. specialize (IH Hr). cbn [mass]. lia.
  - intros _. rewrite mass_app.
    pose proof (match_heavier c r n E) as Hm.
    pose proof (sub_from_mass r n) as Hr.
    rewrite (mass_take_drop (S n) (c :: r)).
    change (drop (S n) (c :: r)) with (drop n r). lia.
  - intros Hr. specialize (IH Hr). cbn [mass]. lia.
Qed.
End Mass.

Lemma starts_with_take (old v : str) :
  starts_with old v = true -> take (length old) v = old.
Proof.
  revert v. induction old as [|a old IH]; intros v; [reflexivity|].
  destruct v as [|x v]; [discriminate|]. simpl.
  intros [Hx H]%andb_prop. apply N.eqb_eq in Hx. subst x. rewrite IH by exact H.
  reflexivity.
Qed.

(** A step is good when its replacement is lighter than whatever it
    replaces. *)
Lemma lit_step_lighter (old new : str) :
  (mass new + 1 <= mass old)%nat ->
  forall c r n, lit_match old (c :: r) = Some (S n) ->
    (mass new + 1 <= mass (take (S n) (c :: r)))%nat.
Proof.
  intros Hl c r n. unfold lit_match.
  destruct (starts_with old (c :: r)) eqn:E; [|discriminate].
  intros [= <-]. rewrite (starts_with_take _ _ E). exact Hl.
Qed.

Lemma removal_lighter (m : str -> option nat) :
  forall c r n, m (c :: r) = Some (S n) ->
    (mass [] + 1 <= mass (take (S n) (c :: r)))%nat.
Proof. intros c r n _. pose proof (weight_pos c). simpl. lia. Qed.

Lemma mark_not_heavier (m : str -> option nat) (x : N) :
  weight x = 2%nat ->
  forall c r n, m (c :: r) = Some (S n) ->
    (mass [x] + 0 <= mass (take (S n) (c :: r)))%nat.
Proof. intros Hx c r n _. pose proof (weight_pos c). simpl. lia. Qed.

Lemma removal_steps_lighter `{Unicode} :
  Forall (fun step => forall c r n, fst step (c :: r) = Some (S n) ->
            (mass (snd step) + 1 <= mass (take (S n) (c :: r)))%nat)
         removal_steps.
Proof.
  unfold removal_steps.
  repeat (apply Forall_cons; split;
    [first [ apply removal_lighter | apply lit_step_lighter; vm_compute; lia ]|]).
  apply Forall_nil. trivial.
Qed.

Lemma apply_steps_mass (steps : list ((str -> option nat) * str)) (s : str) :
  Forall (fun step => forall c r n, fst step (c :: r) = Some (S n) ->
            (mass (snd step) + 1 <= mass (take (S n) (c :: r)))%nat) steps ->
  (mass (apply_steps steps s) <= mass s)%nat.
Proof.
  intros Hsteps. revert s. unfold apply_steps.
  induction Hsteps as [|[m repl] steps Hm _ IH]; intros s; [simpl; lia|].
  cbn [fold_left fst snd]. etransitivity; [apply IH|].
  apply (sub_all_mass m repl 1 Hm).
Qed.

Lemma apply_steps_mass_gain (steps : list ((str -> option nat) * str)) (s : str) :
  Forall (fun step => forall c r n, fst step (c :: r) = Some (S n) ->
            (mass (snd step) + 1 <= mass (take (S n) (c :: r)))%nat) steps ->
  existsb (fun step => matches_somewhere (fst step) s) steps = true ->
  (mass (apply_steps steps s) < mass s)%nat.
Proof.
  intros Hsteps. revert s. unfold apply_steps.
  induction Hsteps as [|[m repl] steps Hm Hsteps IH]; intros s; [discriminate|].
  cbn [fold_left existsb fst snd].
  destruct (matches_somewhere m s) eqn:E; cbn [orb].
  - intros _. pose proof (sub_all_mass_gain m repl 1 Hm s E) as Hg.
    pose proof (apply_steps_mass steps (sub_all m repl s) Hsteps) as Hw.
    unfold apply_steps in Hw. lia.
  - intros H. rewrite (sub_all_no_match m repl s E). apply IH, H.
Qed.

Lemma strip_mass (s : str) : (mass (strip s) <= mass s)%nat.
Proof.
  destruct (strip_decomp s) as (w1 & w2 & Hs & _).
  rewrite Hs at 2. rewrite !mass_app. lia.
Qed.

Lemma clean_text_mass_gain `{Unicode} (t : str) :
  Forall (fun c => c ∉ rewritten_characters) t ->
  has_removable t = true ->
  (mass (clean_text t) < mass t)%nat.
Proof.
  intros Hset Hrem.
  assert (Hsome : existsb (fun step => matches_somewhere (fst step) t) removal_steps = true).
  { unfold has_removable in Hrem. unfold removal_steps. cbn [existsb fst] in *.
    repeat (apply orb_prop in Hrem as [Hrem | Hrem]; [rewrite Hrem, ?orb_true_r; reflexivity|]).
    discriminate Hrem. }
  pose proof (apply_steps_mass_gain removal_steps t removal_steps_lighter Hsome) as Hg.
  change (clean_text t)
    with (strip (collapse_spaces (re_sub url_re [url_mark]
            (apply_steps removal_steps (normalize_characters t))))).
  rewrite (normalize_characters_fixed t Hset).
  pose proof (strip_mass (collapse_spaces (re_sub url_re [url_mark]
                (apply_steps removal_steps t)))) as H1.
  pose proof (sub_all_mass (match_len spaces_re) [32%N] 0
                (mark_not_heavier _ 32 eq_refl)
                (re_sub url_re [url_mark] (apply_steps removal_steps t))) as H2.
  pose proof (sub_all_mass (match_len url_re) [url_mark] 0
                (mark_not_heavier _ url_mark eq_refl)
                (apply_steps removal_steps t)) as H3.
  unfold collapse_spaces, re_sub in *. lia.
Qed.

(** Counterexample for C1: a signature followed by a space survives the
    first pass, because it is not at the end of the text until the text
    is trimmed; the second pass removes it. *)
Lemma clean_text_not_idempotent :
  let s := py "thanks ^ib " in
  @clean_text ascii_tables s = py "thanks ^ib"
  /\ @clean_text ascii_tables (@clean_text ascii_tables s) = py "thanks"
  /\ @clean_text ascii_tables (@clean_text ascii_tables s) <> @clean_text ascii_tables s.
Proof.
  split; [vm_compute; reflexivity|].
  split; [vm_compute; reflexivity|].
  vm_compute. discriminate.
Qed.

(** C1, amended: a second pass of [clean_text] changes nothing exactly
    when the text cleaned once holds nothing that the removal steps act
    on: no escaped bracket, no '@amazonhelp', no '@' followed by digits,
    no caret signature at its end and no part marker.  Otherwise the
    second pass makes the text lighter. *)
Theorem clean_text_idempotent_iff `{Unicode} (s : str) :
  clean_text (clean_text s) = clean_text s
  <-> has_removable (clean_text s) = false.
Proof.
  split; [|apply clean_text_fixed_when_settled].
  intros Heq. destruct (has_removable (clean_text s)) eqn:E; [|reflexivity].
  pose proof (clean_text_mass_gain (clean_text s) (clean_text_settled s) E) as Hlt.
  rewrite Heq in Hlt. lia.
Qed.

(** Example for C1: a tweet with a handle, a URL, a part marker and a
    signature. *)
Lemma clean_text_idempotent_iff_witness :
  let s := py "hey @amazonhelp check www.example.com (1/2) ok  ^ib" in
  @has_removable ascii_tables (@clean_text ascii_tables s) = false
  /\ @clean_text ascii_tables (@clean_text ascii_tables s) = @clean_text ascii_tables s.
Proof.
  split; [vm_compute; reflexivity|].
  apply (@clean_text_idempotent_iff ascii_tables).
  vm_compute. reflexivity.
Defined.

(** * Further properties *)

(** ** The shape of a cleaned text *)

Lemma url_free_everywhere (s : str) (i : nat) :
  matches_somewhere (match_len url_re) s = false -> url_start (drop i s) = false.
Proof.
  revert i. induction s as [|c r IH]; intros i H; [rewrite drop_nil; reflexivity|].
  cbn [matches_somewhere] in H. apply orb_false_elim in H as [Hc Hr].
  destruct i as [|i]; [|apply IH, Hr].
  rewrite drop_0, <- url_match_start. exact Hc.
Qed.

(** X1: whatever the tweet, the cleaned text contains no tab, line break,
    zero-width space or joiner, semicolon, curly quote, acute accent or
    backtick; it has no two spaces in a row and no whitespace at either
    end. *)
Theorem clean_text_normal_form `{Unicode} (tweet : str) :
  Forall (fun c => c ∉ rewritten_characters) (clean_text tweet)
  /\ has_double_blank (clean_text tweet) = false
  /\ trimmed (clean_text tweet).
Proof.
  split; [apply clean_text_settled|].
  unfold clean_text. split.
  - apply strip_no_double, collapse_spaces_no_double.
  - apply strip_trimmed.
Qed.

(** X2: no URL survives [clean_text]: at no position of the cleaned text
    does 'http://', 'https://' or 'www.' stand before a character that is
    not whitespace. *)
Theorem clean_text_leaves_no_url `{Unicode} (tweet : str) (i : nat) :
  url_start (drop i (clean_text tweet)) = false.
Proof.
  apply url_free_everywhere. unfold clean_text. apply url_free_strip.
  rewrite collapse_spaces_squeeze. apply url_free_squeeze, url_free_sub_from.
Qed.

(** ** Steps of clean_text that never act *)

Lemma normalize_characters_settled (tweet : str) :
  Forall (fun c => c ∉ rewritten_characters) (normalize_characters tweet).
Proof.
  rewrite normalize_characters_map. apply Forall_map, Forall_forall.
  intros x _. apply rewrite_character_settled.
Qed.

Lemma settled_lacks (t : str) (c : N) :
  c ∈ rewritten_characters -> Forall (fun x => x ∉ rewritten_characters) t -> c ∉ t.
Proof.
  intros Hc Ht Hin. rewrite Forall_forall in Ht. exact (Ht c Hin Hc).
Qed.

(** X3: the semicolons are turned into commas before '&amp;' is looked
    for, and the zero-width joiners into spaces before the two emoji
    sequences are: these three replacements never change the text that
    reaches them. *)
Theorem clean_text_dead_steps `{Unicode} (tweet : str) :
  let tweet := normalize_characters tweet in
  let tweet := str_replace (py "\{") (py "\(") tweet in
  let tweet := str_replace (py "\}") (py "\)") tweet in
  let tweet := str_replace (py "\[") (py "\(") tweet in
  let tweet := str_replace (py "\]") (py "\)") tweet in
  str_replace (py "&amp;") (py "&") tweet = tweet
  /\ let tweet := str_replace (py "@amazonhelp") [] tweet in
     let tweet := re_sub reference_re [] tweet in
     let tweet := re_sub signature_re [] tweet in
     str_replace [0x200D; 0x2642; 0xFE0F]%N [] tweet = tweet
     /\ str_replace [0x200D; 0x2640; 0xFE0F]%N [] tweet = tweet.
Proof.
  cbv zeta.
  set (t1 := str_replace (py "\]") _ _).
  assert (H1 : Forall (fun c => c ∉ rewritten_characters) t1).
  { unfold t1.
    repeat match goal with
    | |- Forall _ (str_replace _ _ _) => apply str_replace_Forall; [by_eval|]
    end.
    apply normalize_characters_settled. }
  split.
  - apply (str_replace_absent _ _ t1 59); [by_eval|].
    apply settled_lacks; [by_eval | exact H1].
  - set (t2 := re_sub signature_re [] _).
    assert (H2 : Forall (fun c => c ∉ rewritten_characters) t2).
    { unfold t2.
      repeat match goal with
      | |- Forall _ (re_sub _ _ _) => apply re_sub_Forall; [by_eval|]
      | |- Forall _ (str_replace _ _ t1) => apply str_replace_Forall; [by_eval|]
      end.
      exact H1. }
    split; apply (str_replace_absent _ _ t2 0x200D); try by_eval;
      (apply settled_lacks; [by_eval | exact H2]).
Qed.

(** ** Lengths *)

Section Length.
Variable m : str -> option nat.
Variable repl : str.
Hypothesis match_longer : forall c r n,
  m (c :: r) = Some (S n) -> (length repl <= length (take (S n) (c :: r)))%nat.

Lemma sub_from_length (s : str) (k : nat) :
  (length (sub_from m repl k s) <= length (drop k s))%nat.
Proof.
  revert k. induction s as [|c r IH]; intros k; [destruct k; simpl; lia|].
  cbn [sub_from]. destruct k as [|k]; [|apply IH].
  rewrite drop_0.
  destruct (m (c :: r)) as [[|n]|] eqn:E.
  - specialize (IH 0%nat). rewrite drop_0 in IH. cbn [length]. lia.
  - rewrite length_app. specialize (IH n).
    pose proof (match_longer c r n E) as Hm.
    pose proof (f_equal length (take_drop (S n) (c :: r))) as Htd.
    rewrite length_app in Htd.
    change (drop (S n) (c :: r)) with (drop n r) in Htd. lia.
  - specialize (IH 0%nat). rewrite drop_0 in IH. cbn [length]. lia.
Qed.

Lemma sub_all_length (s : str) : (length (sub_all m repl s) <= length s)%nat.
Proof. pose proof (sub_from_length s 0) as Hs. rewrite drop_0 in Hs. exact Hs. Qed.
End Length.

Lemma lit_step_shorter (old new : str) :
  (length new <= length old)%nat ->
  forall c r n, lit_match old (c :: r) = Some (S n) ->
    (length new <= length (take (S n) (c :: r)))%nat.
Proof.
  intros Hl c r n. unfold lit_match.
  destruct (starts_with old (c :: r)) eqn:E; [|discriminate].
  intros [= <-]. rewrite (starts_with_take _ _ E). exact Hl.
Qed.

Lemma short_step_shorter (m : str -> option nat) (repl : str) :
  (length repl <= 1)%nat ->
  forall c r n, m (c :: r) = Some (S n) ->
    (length repl <= length (take (S n) (c :: r)))%nat.
Proof. intros Hl c r n _. simpl. lia. Qed.

Lemma removal_steps_shorter `{Unicode} :
  Forall (fun step => forall c r n, fst step (c :: r) = Some (S n) ->
            (length (snd step) <= length (take (S n) (c :: r)))%nat)
         removal_steps.
Proof.
  unfold removal_steps.
  repeat (apply Forall_cons; split;
    [first [ apply short_step_shorter; vm_compute; lia
           | apply lit_step_shorter; vm_compute; lia ]|]).
  apply Forall_nil. trivial.
Qed.

Lemma apply_steps_length (steps : list ((str -> option nat) * str)) (s : str) :
  Forall (fun step => forall c r n, fst step (c :: r) = Some (S n) ->
            (length (snd step) <= length (take (S n) (c :: r)))%nat) steps ->
  (length (apply_steps steps s) <= length s)%nat.
Proof.
  intros Hsteps. revert s. unfold apply_steps.
  induction Hsteps as [|[m repl] steps Hm _ IH]; intros s; [simpl; lia|].
  cbn [fold_left fst snd]. etransitivity; [apply IH|].
  apply (sub_all_length m repl Hm).
Qed.

Lemma strip_length (s : str) : (length (strip s) <= length s)%nat.
Proof.
  destruct (strip_decomp s) as (w1 & w2 & Hs & _).
  rewrite Hs at 2. rewrite !length_app. lia.
Qed.

Lemma tidy_length (s : str) : (length (strip (collapse_spaces s)) <= length s)%nat.
Proof.
  etransitivity; [apply strip_length|].
  apply (sub_all_length _ _ (short_step_shorter _ [32%N] (Nat.le_refl 1))).
Qed.

(** X4: no step makes a text longer: the cleaned text is at most as long
    as the tweet, and each projection at most as long as the text it is
    given. *)
Theorem texts_never_grow `{Unicode} (tweet alphabet : str) :
  (length (clean_text tweet) <= length tweet)%nat
  /\ (length (process_x_text tweet alphabet) <= length tweet)%nat
  /\ (length (process_y_text tweet alphabet) <= length tweet)%nat.
Proof.
  split; [|split].
  - change (clean_text tweet)
      with (strip (collapse_spaces (re_sub url_re [url_mark]
              (apply_steps removal_steps (normalize_characters tweet))))).
    etransitivity; [apply tidy_length|].
    etransitivity;
      [apply (sub_all_length _ _ (short_step_shorter _ [url_mark] (Nat.le_refl 1)))|].
    etransitivity; [apply apply_steps_length, removal_steps_shorter|].
    rewrite normalize_characters_map, length_map. lia.
  - unfold process_x_text. etransitivity; [apply tidy_length|].
    rewrite length_map. lia.
  - unfold process_y_text. etransitivity; [apply tidy_length|].
    rewrite length_map. lia.
Qed.

(** ** The projections, applied twice *)

Lemma tidy_fixed (s : str) :
  strip (collapse_spaces (strip (collapse_spaces s))) = strip (collapse_spaces s).
Proof.
  rewrite (collapse_spaces_fixed (strip (collapse_spaces s)))
    by apply tidy_no_double.
  apply strip_fixed, strip_trimmed.
Qed.

Lemma map_fixed (f : N -> N) (s : str) :
  Forall (fun c => f c = c) s -> map f s = s.
Proof. induction 1 as [|c r Hc _ IH]; simpl; congruence. Qed.

Lemma projections_inside (tweet alphabet : str) :
  Forall (fun c => c ∈ alphabet \/ c = unknown_mark) (process_x_text tweet alphabet)
  /\ Forall (fun c => c ∈ alphabet \/ c = 32%N) (process_y_text tweet alphabet).
Proof.
  unfold process_x_text, process_y_text.
  split; apply tidy_Forall, Forall_map, Forall_forall; intros c _; simpl;
    destruct (char_in c alphabet) eqn:Hc; auto; left; apply char_in_elem_of, Hc.
Qed.

(** X5: unlike [clean_text], both projections are idempotent, for every
    alphabet. *)
Theorem projections_idempotent (tweet alphabet : str) :
  process_x_text (process_x_text tweet alphabet) alphabet = process_x_text tweet alphabet
  /\ process_y_text (process_y_text tweet alphabet) alphabet = process_y_text tweet alphabet.
Proof.
  destruct (projections_inside tweet alphabet) as [Hx Hy].
  split.
  - unfold process_x_text at 1. rewrite map_fixed.
    + unfold process_x_text. apply tidy_fixed.
    + eapply Forall_impl; [exact Hx|]. intros c [Hc | ->]; simpl.
      * apply char_in_elem_of in Hc. rewrite Hc. reflexivity.
      * destruct (char_in unknown_mark alphabet); reflexivity.
  - unfold process_y_text at 1. rewrite map_fixed.
    + unfold process_y_text. apply tidy_fixed.
    + eapply Forall_impl; [exact Hy|]. intros c [Hc | ->]; simpl.
      * apply char_in_elem_of in Hc. rewrite Hc. reflexivity.
      * destruct (char_in 32%N alphabet); reflexivity.
Qed.

(** X6: on a text whose characters all belong to the alphabet the two
    projections agree: both only collapse the spaces and trim. *)
Theorem projections_agree_inside (tweet alphabet : str) :
  Forall (fun c => c ∈ alphabet) tweet ->
  process_x_text tweet alphabet = strip (collapse_spaces tweet)
  /\ process_y_text tweet alphabet = strip (collapse_spaces tweet).
Proof.
  intros Hin. unfold process_x_text, process_y_text.
  rewrite !map_fixed; [split; reflexivity | |];
    (eapply Forall_impl; [exact Hin|]; intros c Hc; simpl;
     apply char_in_elem_of in Hc; rewrite Hc; reflexivity).
Qed.

(** Example for X6: a text over the alphabet with spaces to collapse and
    to trim. *)
Lemma projections_agree_inside_witness :
  Forall (fun c => c ∈ generate_alphabet) (py " where  is it? ")
  /\ process_x_text (py " where  is it? ") generate_alphabet
     = strip (collapse_spaces (py " where  is it? "))
  /\ process_y_text (py " where  is it? ") generate_alphabet
     = strip (collapse_spaces (py " where  is it? ")).
Proof.
  assert (Hin : Forall (fun c => c ∈ generate_alphabet) (py " where  is it? "))
    by by_eval.
  split; [exact Hin|].
  apply (projections_agree_inside (py " where  is it? ") generate_alphabet Hin).
Defined.

(** ** The character index *)

Lemma char2idx_fold_position (l : str) (start : Z) (d : gmap N Z) (i : nat) (c : N) :
  l !! i = Some c -> c ∉ drop (S i) l ->
  fold_left (fun d char => <[snd char := fst char]> d) (enumerate l start) d !! c
  = Some (start + Z.of_nat i).
Proof.
  revert start d i. induction l as [|x l IH]; intros start d i Hi Hlast; [discriminate|].
  cbn [enumerate fold_left fst snd]. destruct i as [|i].
  - injection Hi as ->. change (drop 1 (c :: l)) with l in Hlast.
    rewrite char2idx_fold_absent by exact Hlast.
    rewrite lookup_insert_eq. f_equal. lia.
  - change (drop (S (S i)) (x :: l)) with (drop (S i) l) in Hlast.
    rewrite (IH (start + 1) _ i Hi Hlast). f_equal. lia.
Qed.

Lemma char2idx_fold_value (l : str) (start : Z) (d : gmap N Z) (c : N) (v : Z) :
  fold_left (fun d char => <[snd char := fst char]> d) (enumerate l start) d !! c = Some v ->
  d !! c = Some v \/ (start <= v /\ l !! Z.to_nat (v - start) = Some c).
Proof.
  revert start d. induction l as [|x l IH]; intros start d; simpl; [auto|].
  intros H. apply IH in H as [H | [Hv Hl]].
  - simpl in H. destruct (decide (x = c)) as [-> | Hne].
    + rewrite lookup_insert_eq in H. injection H as <-.
      right. split; [lia|]. rewrite Z.sub_diag. reflexivity.
    + rewrite lookup_insert_ne in H by exact Hne. auto.
  - right. split; [lia|].
    replace (Z.to_nat (v - start)) with (S (Z.to_nat (v - (start + 1)))) by lia.
    exact Hl.
Qed.

Lemma char2idx_fold_present (l : str) (start : Z) (d : gmap N Z) (c : N) :
  c ∈ l \/ is_Some (d !! c) ->
  is_Some (fold_left (fun d char => <[snd char := fst char]> d) (enumerate l start) d !! c).
Proof.
  revert start d. induction l as [|x l IH]; intros start d H; simpl.
  - destruct H as [H | H]; [inversion H | exact H].
  - apply IH. destruct H as [H | H].
    + apply elem_of_cons in H as [-> | H]; [|left; exact H].
      right. simpl. rewrite lookup_insert_eq. eauto.
    + right. simpl. destruct (decide (x = c)) as [-> | Hne].
      * rewrite lookup_insert_eq. eauto.
      * rewrite lookup_insert_ne by exact Hne. exact H.
Qed.

Lemma make_char2idx_present (alphabet : str) (c : N) :
  c ∈ alphabet -> exists v, make_char2idx alphabet !! c = Some v /\ 1 <= v.
Proof.
  intros Hc.
  destruct (char2idx_fold_present alphabet 1 ∅ c (or_introl Hc)) as [v Hv].
  exists v. split; [exact Hv|]. apply make_char2idx_range in Hv. lia.
Qed.

(** X7: the character index gives the character at position i of the
    alphabet (counted from 0) the index i + 1; when a character occurs
    more than once its last position counts. *)
Theorem char2idx_assigns_positions (alphabet : str) (i : nat) (c : N) :
  alphabet !! i = Some c -> c ∉ drop (S i) alphabet ->
  make_char2idx alphabet !! c = Some (Z.of_nat i + 1).
Proof.
  intros Hi Hlast. unfold make_char2idx.
  rewrite (char2idx_fold_position alphabet 1 ∅ i c Hi Hlast). f_equal. lia.
Qed.

(** Example for X7: 'a' stands at position 10 of the alphabet and gets the
    index 11. *)
Lemma char2idx_assigns_positions_witness :
  make_char2idx generate_alphabet !! 97%N = Some 11.
Proof.
  apply (char2idx_assigns_positions generate_alphabet 10 97%N);
    [reflexivity | by_eval].
Defined.

Lemma char2idx_decodes (alphabet : str) (c : N) (v : Z) :
  make_char2idx alphabet !! c = Some v -> alphabet !! Z.to_nat (v - 1) = Some c.
Proof.
  intros H. apply char2idx_fold_value in H as [H | [_ H]]; [|exact H].
  rewrite lookup_empty in H. discriminate.
Qed.

(** X8: an index leads back to its character, [alphabet[idx - 1]], so the
    encoding loses nothing inside the alphabet: two texts over the
    alphabet with the same vector are the same text. *)
Theorem vectorize_tweet_injective (alphabet : str) :
  (forall c v, make_char2idx alphabet !! c = Some v ->
     alphabet !! Z.to_nat (v - 1) = Some c)
  /\ (forall s t : str,
        Forall (fun c => c ∈ alphabet) s -> Forall (fun c => c ∈ alphabet) t ->
        vectorize_tweet s (make_char2idx alphabet)
          = vectorize_tweet t (make_char2idx alphabet) ->
        s = t).
Proof.
  split; [apply char2idx_decodes|].
  intros s t Hs. revert t.
  induction Hs as [|c s Hc _ IH]; intros t Ht Heq.
  - destruct t; [reflexivity | discriminate].
  - destruct Ht as [|c' t Hc' Ht]; [discriminate|].
    cbn [vectorize_tweet map] in Heq. injection Heq as Hhead Htail.
    destruct (make_char2idx_present alphabet c Hc) as (v & Hv & _).
    destruct (make_char2idx_present alphabet c' Hc') as (v' & Hv' & _).
    rewrite Hv, Hv' in Hhead. subst v'.
    apply char2idx_decodes in Hv, Hv'. rewrite Hv in Hv'. injection Hv' as <-.
    f_equal. apply IH; assumption.
Qed.

(** ** Where the zeros are *)

(** X9: when the marker is outside the alphabet, the encoded question has
    a 0 exactly at the positions of the marker and nowhere else. *)
Theorem question_zeros_are_markers (tweet alphabet : str) (i : nat) :
  unknown_mark ∉ alphabet ->
  vectorize_tweet (process_x_text tweet alphabet) (make_char2idx alphabet) !! i = Some 0
  <-> process_x_text tweet alphabet !! i = Some unknown_mark.
Proof.
  intros Hu. destruct (projections_inside tweet alphabet) as [Hx _].
  split.
  - intros Hv.
    destruct (process_x_text tweet alphabet !! i) as [c|] eqn:Hc.
    + rewrite (vectorize_tweet_lookup _ _ _ _ Hc) in Hv.
      rewrite Forall_forall in Hx.
      destruct (Hx c) as [Hin | ->]; [eapply list_elem_of_lookup_2, Hc | | reflexivity].
      destruct (make_char2idx_present alphabet c Hin) as (v & Hl & Hpos).
      rewrite Hl in Hv. injection Hv as ->. lia.
    + unfold vectorize_tweet in Hv. change (map ?f ?l) with (f <$> l) in Hv.
      rewrite list_lookup_fmap, Hc in Hv. discriminate.
  - intros Hc. rewrite (vectorize_tweet_lookup _ _ _ _ Hc).
    rewrite (make_char2idx_absent alphabet unknown_mark Hu). reflexivity.
Qed.

(** Example for X9: a question whose fourth character is outside the
    alphabet. *)
Lemma question_zeros_are_markers_witness :
  vectorize_tweet (process_x_text (py "caf" ++ [0xE9%N]) generate_alphabet)
                  (make_char2idx generate_alphabet) !! 3%nat = Some 0
  <-> process_x_text (py "caf" ++ [0xE9%N]) generate_alphabet !! 3%nat
      = Some unknown_mark.
Proof.
  apply (question_zeros_are_markers (py "caf" ++ [0xE9%N]) generate_alphabet 3).
  by_eval.
Defined.

(** X10: when the space belongs to the alphabet, an encoded answer
    contains no 0: in the answer matrix every 0 is padding. *)
Theorem answer_has_no_zero (tweet alphabet : str) :
  32%N ∈ alphabet ->
  0 ∉ vectorize_tweet (process_y_text tweet alphabet) (make_char2idx alphabet).
Proof.
  intros Hsp Hin. destruct (projections_inside tweet alphabet) as [_ Hy].
  unfold vectorize_tweet in Hin. change (map ?f ?l) with (f <$> l) in Hin.
  apply list_elem_of_fmap in Hin as (c & Hv & Hc).
  rewrite Forall_forall in Hy.
  assert (Hin : c ∈ alphabet) by (destruct (Hy c Hc) as [H | ->]; assumption).
  destruct (make_char2idx_present alphabet c Hin) as (v & Hl & Hpos).
  rewrite Hl in Hv. lia.
Qed.

(** Example for X10: an answer with a character outside the alphabet. *)
Lemma answer_has_no_zero_witness :
  0 ∉ vectorize_tweet (process_y_text (py "caf" ++ [0xE9%N] ++ py " ok") generate_alphabet)
                      (make_char2idx generate_alphabet).
Proof.
  apply (answer_has_no_zero (py "caf" ++ [0xE9%N] ++ py " ok") generate_alphabet).
  by_eval.
Defined.

(** ** One marker for each character outside the alphabet *)

Lemma squeeze_count (x : N) (b : bool) (s : str) :
  is_blank x = false ->
  length (filter (fun c => c = x) (squeeze b s)) = length (filter (fun c => c = x) s).
Proof.
  intros Hx. revert b. induction s as [|c r IH]; intros b; [reflexivity|].
  cbn [squeeze]. destruct (is_blank c) eqn:Hc.
  - assert (Hne : c <> x) by (intros ->; congruence).
    assert (H32 : 32%N <> x) by (intros <-; discriminate).
    rewrite (filter_cons_False _ c r Hne).
    destruct b; [apply IH|]. rewrite (filter_cons_False _ 32%N _ H32). apply IH.
  - rewrite !filter_cons. destruct (decide (c = x)); simpl; rewrite IH; reflexivity.
Qed.

Lemma whitespace_count (x : N) (w : str) :
  is_space x = false -> Forall (fun c => is_space c = true) w ->
  filter (fun c => c = x) w = [].
Proof.
  intros Hx Hw. induction Hw as [|c w Hc _ IH]; [reflexivity|].
  rewrite filter_cons_False by (intros ->; congruence). exact IH.
Qed.

Lemma tidy_count (x : N) (s : str) :
  is_space x = false ->
  length (filter (fun c => c = x) (strip (collapse_spaces s)))
  = length (filter (fun c => c = x) s).
Proof.
  intros Hx.
  assert (Hb : is_blank x = false).
  { destruct (is_blank x) eqn:E; [|reflexivity].
    apply N.eqb_eq in E. subst x. discriminate. }
  rewrite <- (squeeze_count x false s Hb), <- collapse_spaces_squeeze.
  destruct (strip_decomp (collapse_spaces s)) as (w1 & w2 & Hs & Hw1 & Hw2).
  rewrite Hs at 2. rewrite !filter_app, !length_app.
  rewrite (whitespace_count x w1 Hx Hw1), (whitespace_count x w2 Hx Hw2). simpl. lia.
Qed.

(** X11: when the marker is outside the alphabet, the projected question
    holds exactly one marker for each character of the text that is
    outside the alphabet: collapsing and trimming drop none. *)
Theorem one_marker_per_unknown (tweet alphabet : str) :
  unknown_mark ∉ alphabet ->
  length (filter (fun c => c = unknown_mark) (process_x_text tweet alphabet))
  = length (filter (fun c => c ∉ alphabet) tweet).
Proof.
  intros Hu. unfold process_x_text. rewrite tidy_count by reflexivity.
  induction tweet as [|c r IH]; [reflexivity|].
  cbn [map]. rewrite !filter_cons.
  destruct (char_in c alphabet) eqn:Hc.
  - apply char_in_elem_of in Hc.
    destruct (decide (c = unknown_mark)) as [-> | _]; [contradiction|].
    destruct (decide (c ∉ alphabet)); [contradiction|]. exact IH.
  - assert (Hout : c ∉ alphabet).
    { intros Hin. apply char_in_elem_of in Hin. congruence. }
    destruct (decide (unknown_mark = unknown_mark)); [|congruence].
    destruct (decide (c ∉ alphabet)); [|contradiction].
    simpl. rewrite IH. reflexivity.
Qed.

(** Example for X11: a question with two characters outside the alphabet
    and spaces to collapse. *)
Lemma one_marker_per_unknown_witness :
  length (filter (fun c => c = unknown_mark)
                 (process_x_text ([0xC0%N] ++ py " la  carte " ++ [0x2665%N])
                                 generate_alphabet))
  = length (filter (fun c => c ∉ generate_alphabet)
                   ([0xC0%N] ++ py " la  carte " ++ [0x2665%N])).
Proof.
  apply (one_marker_per_unknown ([0xC0%N] ++ py " la  carte " ++ [0x2665%N])
                                generate_alphabet).
  by_eval.
Defined.

(** ** vectorize_dataset: failure and width *)

Lemma alphabet_index_int64 : int64_indices (make_char2idx generate_alphabet).
Proof.
  intros c v Hc. apply make_char2idx_range in Hc as [Hc _].
  change (length generate_alphabet) with 53%nat in Hc. lia.
Qed.

(** X12: for a dictionary of [int64] indices, as the character index is,
    [vectorize_dataset] raises exactly on the empty table, and then
    [ValueError]; on any other table the padding has made the rows equally
    long, so that [np.stack] accepts them.  (Indices beyond [int64] are
    not covered: the casts of the model are those of integer arrays, and
    an index of 2^1024 makes the real cast overflow.) *)
Theorem vectorize_dataset_raises_iff_empty (df : list (str * str)) (M : gmap N Z) :
  int64_indices M ->
  (vectorize_dataset df M = Raised ValueError <-> df = [])
  /\ (forall e, vectorize_dataset df M = Raised e -> e = ValueError).
Proof.
  intros _. destruct df as [|row df].
  - split; [split; reflexivity|]. intros e [= <-]. reflexivity.
  - assert (Hne : row :: df <> []) by discriminate.
    rewrite (vectorize_dataset_returns (row :: df) M Hne).
    split; [split; discriminate | discriminate].
Qed.

(** Example for X12: a table of one exchange and the character index of
    the alphabet. *)
Lemma vectorize_dataset_raises_iff_empty_witness :
  int64_indices (make_char2idx generate_alphabet)
  /\ (vectorize_dataset [(py "hi", py "hello")] (make_char2idx generate_alphabet)
        = Raised ValueError <-> [(py "hi", py "hello")] = [])
  /\ (forall e, vectorize_dataset [(py "hi", py "hello")] (make_char2idx generate_alphabet)
                  = Raised e -> e = ValueError).
Proof.
  split; [exact alphabet_index_int64|].
  apply (vectorize_dataset_raises_iff_empty [(py "hi", py "hello")]
           (make_char2idx generate_alphabet) alphabet_index_int64).
Defined.

Lemma common_width_attained (df : list (str * str)) :
  df <> [] ->
  exists i x y, df !! i = Some (x, y)
    /\ (length x = common_width df \/ length y = common_width df).
Proof.
  intros Hne. unfold common_width.
  set (lx := map (fun row : str * str => length (fst row)) df).
  set (ly := map (fun row : str * str => length (snd row)) df).
  assert (Hx : max_list lx ∈ lx).
  { apply max_list_elem_of. unfold lx. destruct df; [congruence | discriminate]. }
  assert (Hy : max_list ly ∈ ly).
  { apply max_list_elem_of. unfold ly. destruct df; [congruence | discriminate]. }
  destruct (Nat.max_spec (max_list lx) (max_list ly)) as [[_ ->] | [_ ->]].
  - unfold ly in Hy at 2. change (map ?f df) with (f <$> df) in Hy.
    apply list_elem_of_fmap in Hy as ([x y] & Hlen & Hin).
    apply list_elem_of_lookup in Hin as [i Hi]. exists i, x, y. auto.
  - unfold lx in Hx at 2. change (map ?f df) with (f <$> df) in Hx.
    apply list_elem_of_fmap in Hx as ([x y] & Hlen & Hin).
    apply list_elem_of_lookup in Hin as [i Hi]. exists i, x, y. auto.
Qed.

Lemma padded_row_length (M : gmap N Z) (w : nat) (s : str) :
  (length s <= w)%nat ->
  length (map astype_float32 (left_pad w (vectorize_tweet s M))) = w.
Proof.
  intros H. rewrite length_map. apply left_pad_length.
  unfold vectorize_tweet. rewrite length_map. exact H.
Qed.

(** X13: the matrices are no wider than needed: on a non-empty table some
    row of the question matrix or of the answer matrix is exactly as long
    as its text, that is, it carries no padding. *)
Theorem some_row_is_unpadded (df : list (str * str)) (M : gmap N Z) :
  df <> [] ->
  exists Q A i x y row,
    vectorize_dataset df M = Returned (Q, A)
    /\ df !! i = Some (x, y)
    /\ ((Q !! i = Some row /\ length row = length x)
        \/ (A !! i = Some row /\ length row = length y)).
Proof.
  intros Hne.
  destruct (common_width_attained df Hne) as (i & x & y & Hi & Hw).
  destruct Hw as [Hw | Hw].
  - eexists _, _, i, x, y, _. split; [apply vectorize_dataset_returns, Hne|].
    split; [exact Hi|]. left. rewrite !map_map.
    change (map ?f df) with (f <$> df). rewrite list_lookup_fmap, Hi.
    split; [reflexivity|]. cbn [fst]. rewrite padded_row_length; lia.
  - eexists _, _, i, x, y, _. split; [apply vectorize_dataset_returns, Hne|].
    split; [exact Hi|]. right. rewrite !map_map.
    change (map ?f df) with (f <$> df). rewrite list_lookup_fmap, Hi.
    split; [reflexivity|]. cbn [snd]. rewrite padded_row_length; lia.
Qed.

(** Example for X13: a table of two exchanges. *)
Lemma some_row_is_unpadded_witness :
  exists Q A i x y row,
    vectorize_dataset [(py "hi", py "hello"); (py "where?", py "here")]
                      (make_char2idx generate_alphabet) = Returned (Q, A)
    /\ [(py "hi", py "hello"); (py "where?", py "here")] !! i = Some (x, y)
    /\ ((Q !! i = Some row /\ length row = length x)
        \/ (A !! i = Some row /\ length row = length y)).
Proof.
  apply (some_row_is_unpadded [(py "hi", py "hello"); (py "where?", py "here")]
                              (make_char2idx generate_alphabet)).
  discriminate.
Defined.

(** ** train_test_val_split: pairing and unchecked fractions *)

Lemma take_rows_lookup {A : Type} (indices : list nat) (M : list A) (k : nat) :
  Forall (fun i => (i < length M)%nat) indices ->
  take_rows indices M !! k = indices !! k ≫= (fun i => M !! i).
Proof.
  intros Hidx. revert k. unfold take_rows.
  induction Hidx as [|i indices Hi _ IH]; intros k; [reflexivity|].
  cbn [omap list_omap]. destruct (lookup_lt_is_Some_2 M i Hi) as [x Hx].
  rewrite Hx. destruct k as [|k]; [simpl; rewrite Hx; reflexivity | apply IH].
Qed.

Lemma shuffle_indices_bounded `{Shuffler} (seed : Z) (n : nat) :
  Forall (fun i => (i < n)%nat) (shuffle_indices seed n).
Proof.
  apply Forall_forall. intros i Hi.
  rewrite (shuffle_indices_perm seed n) in Hi. apply elem_of_seq in Hi. lia.
Qed.

Lemma slice_lookup {A : Type} (M : list A) (lo hi : Z) (i : nat) (x : A) :
  slice M lo hi !! i = Some x ->
  M !! (slice_index (length M) lo + i)%nat = Some x.
Proof.
  unfold slice. intros H. apply lookup_take_Some in H as [H _].
  rewrite lookup_drop in H. exact H.
Qed.

Lemma slice_from_lookup {A : Type} (M : list A) (lo : Z) (i : nat) (x : A) :
  slice_from M lo !! i = Some x ->
  M !! (slice_index (length M) lo + i)%nat = Some x.
Proof. unfold slice_from. rewrite lookup_drop. trivial. Qed.

Lemma shuffled_pair `{Shuffler} {R : Type} (Q A : list R) (seed : Z) (k : nat) (q a : R) :
  length Q = length A ->
  take_rows (shuffle_indices seed (length Q)) Q !! k = Some q ->
  take_rows (shuffle_indices seed (length Q)) A !! k = Some a ->
  exists j, Q !! j = Some q /\ A !! j = Some a.
Proof.
  intros Hlen Hq Ha.
  rewrite take_rows_lookup in Hq by apply shuffle_indices_bounded.
  rewrite take_rows_lookup in Ha by (rewrite <- Hlen; apply shuffle_indices_bounded).
  destruct (shuffle_indices seed (length Q) !! k) as [j|]; [|discriminate].
  exists j. auto.
Qed.

(** X14: the split keeps questions and answers together: in each of the
    three parts, the question row and the answer row at the same position
    come from one and the same row of the input matrices. *)
Theorem split_keeps_pairs `{Shuffler} {R : Type} (Q A : list R)
    (val_size test_size : spec_float) (seed : Z) (sp : Split (list R)) :
  train_test_val_split Q A val_size test_size seed = Returned sp ->
  forall (i : nat) (q a : R),
    (Q_train sp !! i = Some q /\ A_train sp !! i = Some a)
    \/ (Q_val sp !! i = Some q /\ A_val sp !! i = Some a)
    \/ (Q_test sp !! i = Some q /\ A_test sp !! i = Some a) ->
    exists j, Q !! j = Some q /\ A !! j = Some a.
Proof.
  unfold train_test_val_split, sklearn_shuffle.
  destruct (Nat.eqb_spec (length Q) (length A)) as [Hlen|]; [|discriminate].
  cbn [mbind outcome_bind fst snd].
  set (Q' := take_rows _ Q). set (A' := take_rows _ A).
  assert (Hl : length A' = length Q').
  { unfold Q', A'.
    rewrite (take_rows_Permutation _ Q) by apply shuffle_indices_perm.
    rewrite (take_rows_Permutation _ A) by (rewrite <- Hlen; apply shuffle_indices_perm).
    auto. }
  destruct (train_val_cutoff (length Q') val_size test_size) as [a0|]; [|discriminate].
  cbn [mbind outcome_bind].
  destruct (val_test_cutoff (length Q') test_size) as [b0|]; [|discriminate].
  cbn [mbind outcome_bind]. intros [= <-] i q a.
  cbn [Q_train A_train Q_val A_val Q_test A_test].
  intros [[Hq Ha] | [[Hq Ha] | [Hq Ha]]].
  - apply slice_lookup in Hq, Ha. rewrite Hl in Ha.
    apply (shuffled_pair Q A seed _ q a Hlen Hq Ha).
  - apply slice_lookup in Hq, Ha. rewrite Hl in Ha.
    apply (shuffled_pair Q A seed _ q a Hlen Hq Ha).
  - apply slice_from_lookup in Hq, Ha. rewrite Hl in Ha.
    apply (shuffled_pair Q A seed _ q a Hlen Hq Ha).
Qed.

(** Example for X14: ten numbered rows and the fractions (0.1, 0.1): the
    first validation row is row 8 on both sides. *)
Lemma split_keeps_pairs_witness :
  exists sp,
    @train_test_val_split in_place _ (numbered_rows 10) (numbered_rows 10)
      (decimal 1 10) (decimal 1 10) 0 = Returned sp
    /\ Q_val sp !! 0%nat = Some [8] /\ A_val sp !! 0%nat = Some [8]
    /\ exists j, numbered_rows 10 !! j = Some [8] /\ numbered_rows 10 !! j = Some [8].
Proof.
  destruct (@train_test_val_split in_place _ (numbered_rows 10) (numbered_rows 10)
              (decimal 1 10) (decimal 1 10) 0) as [sp|e] eqn:E;
    [|vm_compute in E; discriminate E].
  assert (Hq : Q_val sp !! 0%nat = Some [8] /\ A_val sp !! 0%nat = Some [8]).
  { pose proof E as E'. vm_compute in E'. injection E' as <-. split; reflexivity. }
  exists sp. split; [reflexivity|]. split; [apply Hq|]. split; [apply Hq|].
  apply (@split_keeps_pairs in_place _ (numbered_rows 10) (numbered_rows 10)
           (decimal 1 10) (decimal 1 10) 0 sp E 0%nat [8] [8]).
  right. left. exact Hq.
Defined.

(** X15: the fractions are not checked.  When they add up to more than 1
    the train cutoff is negative and the slice counts it from the end:
    the train part is every shuffled row but the last few and, when the
    test cutoff does not lie beyond the end of that train part, the
    validation part is empty and the rows between the test cutoff and the
    end of the train part are in the train part and in the test part at
    once. *)
Theorem negative_cutoff_overlaps `{Shuffler} {R : Type} (Q A : list R)
    (val_size test_size : spec_float) (seed : Z) (a b : Z) :
  length Q = length A ->
  train_val_cutoff (length Q) val_size test_size = Returned a ->
  val_test_cutoff (length Q) test_size = Returned b ->
  - Z.of_nat (length Q) <= a < 0 ->
  0 <= b <= Z.of_nat (length Q) + a ->
  exists Q' A' sp,
    sklearn_shuffle Q A seed = Returned (Q', A')
    /\ train_test_val_split Q A val_size test_size seed = Returned sp
    /\ Q_train sp = take (length Q - Z.to_nat (- a)) Q'
    /\ Q_val sp = []
    /\ Q_test sp = drop (Z.to_nat b) Q'
    /\ forall j row,
         (Z.to_nat b <= j < length Q - Z.to_nat (- a))%nat ->
         Q' !! j = Some row ->
         row ∈ Q_train sp /\ row ∈ Q_test sp.
Proof.
  intros Hlen Ha Hb Harange Hbrange.
  set (idx := shuffle_indices seed (length Q)).
  assert (HlQ : length (take_rows idx Q) = length Q).
  { rewrite (take_rows_Permutation idx Q) by apply shuffle_indices_perm. reflexivity. }
  assert (Hsh : sklearn_shuffle Q A seed = Returned (take_rows idx Q, take_rows idx A)).
  { unfold sklearn_shuffle. rewrite <- Hlen, Nat.eqb_refl. reflexivity. }
  exists (take_rows idx Q), (take_rows idx A). eexists.
  split; [exact Hsh|]. split.
  { unfold train_test_val_split. rewrite Hsh. cbn [mbind outcome_bind fst snd].
    rewrite HlQ, Ha. cbn [mbind outcome_bind]. rewrite Hb. reflexivity. }
  cbn [Q_train Q_val Q_test].
  assert (Hlo : slice_index (length (take_rows idx Q)) a
                = (length Q - Z.to_nat (- a))%nat).
  { unfold slice_index. rewrite HlQ.
    destruct (Z.ltb_spec a 0); [|lia]. rewrite Z.max_r by lia. lia. }
  assert (Hhi : slice_index (length (take_rows idx Q)) b = Z.to_nat b).
  { unfold slice_index. rewrite HlQ.
    destruct (Z.ltb_spec b 0); [lia|]. rewrite Z.min_l by lia. reflexivity. }
  assert (H0 : slice_index (length (take_rows idx Q)) 0 = 0%nat).
  { unfold slice_index. simpl. lia. }
  unfold slice, slice_from. rewrite Hlo, Hhi, H0, drop_0, Nat.sub_0_r.
  split; [reflexivity|]. split.
  { replace (Z.to_nat b - (length Q - Z.to_nat (- a)))%nat with 0%nat by lia.
    reflexivity. }
  split; [reflexivity|].
  intros j row Hj Hrow. split.
  - apply list_elem_of_lookup. exists j. rewrite lookup_take_lt by lia. exact Hrow.
  - apply list_elem_of_lookup. exists (j - Z.to_nat b)%nat.
    rewrite lookup_drop. replace (Z.to_nat b + (j - Z.to_nat b))%nat with j by lia.
    exact Hrow.
Qed.

(** Example for X15: ten rows and the fractions (0.6, 0.6): the train part
    has nine rows, the test part the last six. *)
Lemma negative_cutoff_overlaps_witness :
  train_val_cutoff 10 (decimal 6 10) (decimal 6 10) = Returned (-1)
  /\ val_test_cutoff 10 (decimal 6 10) = Returned 4
  /\ exists sp,
       @train_test_val_split in_place _ (numbered_rows 10) (numbered_rows 10)
         (decimal 6 10) (decimal 6 10) 0 = Returned sp
       /\ length (Q_train sp) = 9%nat /\ Q_val sp = [] /\ length (Q_test sp) = 6%nat
       /\ [4] ∈ Q_train sp /\ [4] ∈ Q_test sp.
Proof.
  split; [vm_compute; reflexivity|]. split; [vm_compute; reflexivity|].
  destruct (@negative_cutoff_overlaps in_place _
              (numbered_rows 10) (numbered_rows 10)
              (decimal 6 10) (decimal 6 10) 0 (-1) 4)
    as (Q' & A' & sp & Hsh & Hsp & Ht & Hv & Hte & Hov).
  - reflexivity.
  - vm_compute. reflexivity.
  - vm_compute. reflexivity.
  - vm_compute. split; congruence.
  - vm_compute. split; congruence.
  - exists sp. split; [exact Hsp|].
    injection Hsh as <- <-.
    split; [rewrite Ht; reflexivity|]. split; [exact Hv|].
    split; [rewrite Hte; reflexivity|].
    apply (Hov 4%nat [4]); [vm_compute; lia | reflexivity].
Defined.

(** X16: a fraction that is not a number is not caught either: the cutoff
    is NaN and [int] raises [ValueError]. *)
Theorem nan_fraction_raises `{Shuffler} {R : Type} (Q A : list R)
    (val_size test_size : spec_float) (seed : Z) :
  length Q = length A ->
  val_size = S754_nan \/ test_size = S754_nan ->
  train_test_val_split Q A val_size test_size seed = Raised ValueError.
Proof.
  intros Hlen Hnan. unfold train_test_val_split, sklearn_shuffle.
  rewrite <- Hlen, Nat.eqb_refl. cbn [mbind outcome_bind fst snd].
  assert (Hsum : b64_add val_size test_size = S754_nan).
  { destruct Hnan as [-> | ->]; [reflexivity|]. destruct val_size; reflexivity. }
  unfold train_val_cutoff. rewrite Hsum.
  change (b64_sub (float_of_int 1) S754_nan) with S754_nan.
  replace (b64_mul _ S754_nan) with S754_nan
    by (unfold b64_mul; destruct (float_of_int _); reflexivity).
  reflexivity.
Qed.

(** Example for X16: three rows and a validation fraction that is NaN. *)
Lemma nan_fraction_raises_witness :
  @train_test_val_split in_place _ (numbered_rows 3) (numbered_rows 3)
    S754_nan (decimal 1 10) 0 = Raised ValueError.
Proof.
  apply (@nan_fraction_raises in_place); [reflexivity | left; reflexivity].
Defined.

(** ** The table of exchanges *)

Lemma merge_elem_of_iff (left right : list Message) (q a : Message) :
  (q, a) ∈ merge left right
  <-> q ∈ left /\ a ∈ right /\ in_response_to_tweet_id a = Some (tweet_id q).
Proof.
  split; [apply merge_elem_of|].
  intros (Hq & Ha & Hr). unfold merge.
  apply list_elem_of_In, in_flat_map. exists q. split; [apply list_elem_of_In, Hq|].
  apply in_map_iff. exists a. split; [reflexivity|].
  apply list_elem_of_In, list_elem_of_filter. split; assumption.
Qed.

Lemma zip_tags {X Y T : Type} (f : X -> T) (g : Y -> T) (l : list (X * Y)) :
  zip (zip l (map f (map fst l))) (map g (map snd l))
  = map (fun xy => (xy, f (fst xy), g (snd xy))) l.
Proof. induction l as [|xy l IH]; [reflexivity|]. simpl. rewrite IH. reflexivity. Qed.

(** On a table whose ids [float64] holds exactly, comparing the keys of the
    join as [float64] is comparing the ids. *)
Lemma exact_ids_compare (df : list Message) (q a : Message) (v : Z) :
  exact_in_float64 df -> q ∈ df -> a ∈ df ->
  in_response_to_tweet_id a = Some v ->
  to_float64 (tweet_id q) = to_float64 v <-> v = tweet_id q.
Proof.
  intros Hdf Hq Ha Hv. unfold exact_in_float64 in Hdf. rewrite Forall_forall in Hdf.
  destruct (Hdf q Hq) as [Hid _]. destruct (Hdf a Ha) as [_ Hre].
  specialize (Hre v Hv). unfold to_float64.
  rewrite !round_int_exact by (assumption || lia).
  split; congruence.
Qed.

(** X17: on a table whose ids [float64] holds exactly, when
    [organize_QA_dataframe] returns, the table of exchanges is exactly the
    set of prepared (question, answer) texts of the pairs of rows q, a
    such that q is an inbound tweet that replies to nothing, a is a reply
    to q written by 'AmazonHelp', [check_language] answers 'en' on both
    lowercased texts, and the lowercased answer does not end with '(1/2)'
    or '(2/2)'. *)
Theorem organize_QA_dataframe_exact `{Unicode} `{Detector}
    (df : list Message) (alphabet : str) (exchanges : list (str * str)) :
  exact_in_float64 df ->
  organize_QA_dataframe df alphabet = Returned exchanges ->
  forall x y, (x, y) ∈ exchanges <->
    exists q a,
      q ∈ df /\ a ∈ df
      /\ inbound q = true
      /\ in_response_to_tweet_id q = None
      /\ in_response_to_tweet_id a = Some (tweet_id q)
      /\ author_id a = target_author
      /\ check_language (lower (text q)) = Returned (py "en")
      /\ check_language (lower (text a)) = Returned (py "en")
      /\ ends_with (py "(1/2)") (lower (text a)) = false
      /\ ends_with (py "(2/2)") (lower (text a)) = false
      /\ x = process_x_text (clean_text (lower (text q))) alphabet
      /\ y = process_y_text (clean_text (lower (text a))) alphabet.
Proof.
  intros _. unfold organize_QA_dataframe.
  rewrite !comprehension_check_language. cbn [mbind outcome_bind].
  rewrite zip_tags. intros [= <-].
  intros x y. change (map ?f ?l) with (f <$> l). split.
  - intros Hin.
    do 4 (apply list_elem_of_fmap in Hin as ([? ?] & Heq & Hin); simpl in Heq;
          injection Heq as -> ->).
    apply list_elem_of_filter in Hin as [[He1 He2] Hin]. simpl in He1, He2.
    apply list_elem_of_fmap in Hin as ([[[x0 y0] ex] ey] & Heq & Hin). simpl in Heq.
    injection Heq as -> ->.
    apply list_elem_of_filter in Hin as [[Hex Hey] Hin]. simpl in Hex, Hey.
    apply list_elem_of_fmap in Hin as ([x1 y1] & Heq & Hin). simpl in Heq.
    injection Heq as -> -> -> ->.
    do 2 (apply list_elem_of_fmap in Hin as ([? ?] & Heq & Hin); simpl in Heq;
          injection Heq as -> ->).
    apply list_elem_of_fmap in Hin as ([q a] & Heq & Hin). simpl in Heq.
    injection Heq as -> ->.
    apply list_elem_of_filter in Hin as [Hauthor Hin]. simpl in Hauthor.
    apply merge_elem_of in Hin as (Hq & Ha & Hreply).
    apply list_elem_of_filter in Hq as [[Hinb Hnone] Hq].
    exists q, a. rewrite !check_language_total, Hex, Hey.
    apply negb_true_iff in He1, He2.
    repeat split; assumption.
  - intros (q & a & Hq & Ha & Hinb & Hnone & Hreply & Hauthor & Hex & Hey
            & He1 & He2 & -> & ->).
    rewrite check_language_total in Hex, Hey.
    injection Hex as Hex. injection Hey as Hey.
    apply (list_elem_of_fmap_2' _ _
             (process_x_text (clean_text (lower (text q))) alphabet,
              clean_text (lower (text a)))); [|reflexivity].
    apply (list_elem_of_fmap_2' _ _
             (clean_text (lower (text q)), clean_text (lower (text a))));
      [|reflexivity].
    apply (list_elem_of_fmap_2' _ _ (clean_text (lower (text q)), lower (text a)));
      [|reflexivity].
    apply (list_elem_of_fmap_2' _ _ (lower (text q), lower (text a))); [|reflexivity].
    apply list_elem_of_filter. split.
    { simpl. rewrite He1, He2. split; reflexivity. }
    apply (list_elem_of_fmap_2' _ _
             ((lower (text q), lower (text a)), py "en", py "en")); [|reflexivity].
    apply list_elem_of_filter. split; [split; reflexivity|].
    apply (list_elem_of_fmap_2' _ _ (lower (text q), lower (text a)));
      [|simpl; rewrite Hex, Hey; reflexivity].
    apply (list_elem_of_fmap_2' _ _ (lower (text q), text a)); [|reflexivity].
    apply (list_elem_of_fmap_2' _ _ (text q, text a)); [|reflexivity].
    apply (list_elem_of_fmap_2' _ _ (q, a)); [|reflexivity].
    apply list_elem_of_filter. split; [exact Hauthor|].
    apply merge_elem_of_iff. split; [|split; assumption].
    apply list_elem_of_filter. split; [split; assumption | exact Hq].
Qed.

(** Example for X17: the table with one complete exchange; the question
    without a reply and the follow-up of the customer give nothing. *)
Lemma organize_QA_dataframe_exact_witness :
  exact_in_float64 four_rows
  /\ forall x y,
       (x, y) ∈ [ (py "where is my parcel?? " ++ [unknown_mark],
                   py "sorry for the delay! we'll check now") ] <->
       exists q a,
         q ∈ four_rows /\ a ∈ four_rows
         /\ inbound q = true
         /\ in_response_to_tweet_id q = None
         /\ in_response_to_tweet_id a = Some (tweet_id q)
         /\ author_id a = target_author
         /\ @check_language fussy_detector (@lower ascii_tables (text q))
            = Returned (py "en")
         /\ @check_language fussy_detector (@lower ascii_tables (text a))
            = Returned (py "en")
         /\ ends_with (py "(1/2)") (@lower ascii_tables (text a)) = false
         /\ ends_with (py "(2/2)") (@lower ascii_tables (text a)) = false
         /\ x = process_x_text (@clean_text ascii_tables (@lower ascii_tables (text q)))
                               generate_alphabet
         /\ y = process_y_text (@clean_text ascii_tables (@lower ascii_tables (text a)))
                               generate_alphabet.
Proof.
  assert (Hids : exact_in_float64 four_rows).
  { unfold exact_in_float64, four_rows.
    repeat (apply Forall_cons; split;
            [split; [vm_compute; congruence
                    | intros v Hv; cbn in Hv; first [discriminate Hv
                        | injection Hv as <-; vm_compute; congruence]]|]).
    apply Forall_nil_2. }
  split; [exact Hids|].
  apply (@organize_QA_dataframe_exact ascii_tables fussy_detector
           four_rows generate_alphabet _ Hids).
  vm_compute. reflexivity.
Defined.

(** ** The detector's input *)

Lemma contains_no_match (element tweet : str) :
  contains element tweet = false ->
  matches_somewhere (lit_match element) tweet = false.
Proof.
  induction tweet as [|c r IH]; [reflexivity|].
  cbn [contains matches_somewhere]. intros [Hs Hr]%orb_false_elim.
  rewrite (IH Hr), orb_false_r. unfold matches_at, lit_match. rewrite Hs. reflexivity.
Qed.

(** X18: the test [any(element in tweet ...)] of [check_language] changes
    nothing: with or without an occurrence, the detector is given the text
    from which the seven product names have been removed, one after the
    other in the order of the list. *)
Theorem langdetect_guard_is_redundant (tweet : str) :
  langdetect_input tweet
  = fold_left (fun tweet element => str_replace element [] tweet)
              remove_for_langdetect tweet.
Proof.
  unfold langdetect_input.
  destruct (existsb _ remove_for_langdetect) eqn:E; [reflexivity|].
  unfold remove_for_langdetect in *. cbn [existsb] in E.
  repeat (apply orb_false_elim in E as [?%contains_no_match E]).
  cbn [fold_left].
  repeat (rewrite (str_replace_no_match _ [] tweet) by assumption).
  reflexivity.
Qed.

(** ** The matrices of the data set *)

Lemma organize_rows `{Unicode} `{Detector}
    (df : list Message) (alphabet : str) (exchanges : list (str * str)) :
  organize_QA_dataframe df alphabet = Returned exchanges ->
  Forall (fun row => exists tx ty,
            row = (process_x_text tx alphabet, process_y_text ty alphabet))
         exchanges.
Proof.
  unfold organize_QA_dataframe.
  rewrite !comprehension_check_language. cbn [mbind outcome_bind].
  intros [= <-]. rewrite !map_map. apply Forall_map, Forall_forall.
  intros [x y] _. simpl. eauto.
Qed.

Lemma vectorize_tweet_range (alphabet s : str) :
  Forall (fun v => 0 <= v <= Z.of_nat (length alphabet))
         (vectorize_tweet s (make_char2idx alphabet)).
Proof.
  unfold vectorize_tweet. apply Forall_map, Forall_forall. intros c _. simpl.
  destruct (make_char2idx alphabet !! c) as [v|] eqn:E; [|lia].
  apply make_char2idx_range in E. lia.
Qed.

Lemma vectorize_answer_range (alphabet tweet : str) :
  32%N ∈ alphabet ->
  Forall (fun v => 1 <= v <= Z.of_nat (length alphabet))
         (vectorize_tweet (process_y_text tweet alphabet) (make_char2idx alphabet)).
Proof.
  intros Hsp. destruct (projections_inside tweet alphabet) as [_ Hy].
  unfold vectorize_tweet. apply Forall_map.
  eapply Forall_impl; [exact Hy|]. intros c Hc. simpl.
  assert (Hin : c ∈ alphabet) by (destruct Hc as [Hc | ->]; assumption).
  destruct (make_char2idx_present alphabet c Hin) as (v & Hl & Hpos).
  rewrite Hl. apply make_char2idx_range in Hl. lia.
Qed.

Lemma take_rows_Forall {A : Type} (P : A -> Prop) (indices : list nat) (M : list A) :
  Forall P M -> Forall P (take_rows indices M).
Proof.
  intros HM. unfold take_rows.
  induction indices as [|i l IH]; [constructor|].
  cbn [omap list_omap]. destruct (M !! i) as [x|] eqn:E; [|exact IH].
  constructor; [|exact IH].
  rewrite Forall_forall in HM. apply HM. eapply list_elem_of_lookup_2, E.
Qed.

Lemma split_Forall `{Shuffler} {R : Type} (P P' : R -> Prop) (Q A : list R)
    (val_size test_size : spec_float) (seed : Z) (sp : Split (list R)) :
  train_test_val_split Q A val_size test_size seed = Returned sp ->
  Forall P Q -> Forall P' A ->
  Forall P (Q_train sp ++ Q_val sp ++ Q_test sp)
  /\ Forall P' (A_train sp ++ A_val sp ++ A_test sp).
Proof.
  unfold train_test_val_split, sklearn_shuffle. intros Hsp HQ HA.
  destruct (length Q =? length A)%nat; [|discriminate].
  cbn [mbind outcome_bind fst snd] in Hsp.
  destruct (train_val_cutoff _ _ _) as [a|]; [|discriminate].
  cbn [mbind outcome_bind] in Hsp.
  destruct (val_test_cutoff _ _) as [b|]; [|discriminate].
  injection Hsp as <-. cbn [Q_train Q_val Q_test A_train A_val A_test].
  unfold slice, slice_from.
  split; repeat apply Forall_app_2;
    repeat first [apply Forall_take | apply Forall_drop];
    apply take_rows_Forall; assumption.
Qed.

(** X19: the shape of what [get_amazon_dataset] returns: there is a common
    width such that every row of the three question matrices has that
    width and holds integers from 0 to 53, and every row of the three
    answer arrays has that width and is a run of cells [[0]] followed by
    cells [[idx]] with idx from 1 to 53: in an answer a 0 is always
    padding. *)
Theorem get_amazon_dataset_shape `{Unicode} `{Detector} `{Shuffler}
    (df : list Message) (val_size test_size : spec_float) (seed : Z) (ds : Dataset) :
  get_amazon_dataset df val_size test_size seed = Returned ds ->
  exists width : nat,
    Forall (fun row => length row = width /\ Forall (fun v => 0 <= v <= 53) row)
           (ds_Q_train ds ++ ds_Q_val ds ++ ds_Q_test ds)
    /\ Forall (fun row => length row = width
                 /\ exists (k : nat) (idx : list Z),
                      row = replicate k [0] ++ map (fun v => [v]) idx
                      /\ Forall (fun v => 1 <= v <= 53) idx)
              (ds_A_train ds ++ ds_A_val ds ++ ds_A_test ds).
Proof.
  unfold get_amazon_dataset. intros Hds.
  destruct (organize_QA_dataframe df generate_alphabet) as [ex|] eqn:Hex; [|discriminate].
  cbn [mbind outcome_bind] in Hds.
  pose proof (organize_rows _ _ _ Hex) as Hrows.
  destruct ex as [|r0 ex0]; [discriminate|].
  set (ex := r0 :: ex0) in *.
  rewrite (vectorize_dataset_returns ex) in Hds by discriminate.
  cbn [mbind outcome_bind fst snd] in Hds.
  destruct (train_test_val_split _ _ _ _ _) as [sp|] eqn:Hsp; [|discriminate].
  injection Hds as <-.
  cbn [ds_Q_train ds_Q_val ds_Q_test ds_A_train ds_A_val ds_A_test].
  exists (common_width ex).
  eapply (split_Forall
            (fun row => length row = common_width ex
                        /\ Forall (fun v => 0 <= v <= 53) row)
            (fun row => length row = common_width ex
                        /\ exists (k : nat) (idx : list Z),
                             row = replicate k 0 ++ idx
                             /\ Forall (fun v => 1 <= v <= 53) idx)) in Hsp.
  - destruct Hsp as [HQ HA]. split; [exact HQ|].
    unfold expand_dims. rewrite <- !map_app. apply Forall_map.
    eapply Forall_impl; [exact HA|]. intros row (Hlen & k & idx & -> & Hidx). simpl.
    split; [rewrite length_map; exact Hlen|].
    exists k, idx. split; [|exact Hidx].
    rewrite map_app. f_equal. clear Hlen.
    induction k as [|k IH]; [reflexivity|]. simpl. rewrite IH. reflexivity.
  - rewrite !map_map. apply Forall_map, Forall_forall. intros [x y] Hin. cbn [fst].
    rewrite padded_row by (intros c v; apply alphabet_index_bounded).
    split.
    + rewrite length_app, length_replicate.
      unfold vectorize_tweet. rewrite length_map.
      pose proof (common_width_bounds ex x y Hin). lia.
    + apply Forall_app_2.
      * apply Forall_replicate. lia.
      * apply (vectorize_tweet_range generate_alphabet).
  - rewrite !map_map. apply Forall_map, Forall_forall. intros [x y] Hin. cbn [snd].
    rewrite padded_row by (intros c v; apply alphabet_index_bounded).
    split.
    + rewrite length_app, length_replicate.
      unfold vectorize_tweet. rewrite length_map.
      pose proof (common_width_bounds ex x y Hin). lia.
    + eexists _, _. split; [reflexivity|].
      rewrite Forall_forall in Hrows.
      destruct (Hrows _ Hin) as (tx & ty & [= -> ->]).
      apply (vectorize_answer_range generate_alphabet). by_eval.
Qed.

(** Example for X19: the table with one complete exchange. *)
Lemma get_amazon_dataset_shape_witness :
  exists ds,
    @get_amazon_dataset ascii_tables fussy_detector in_place four_rows
      (decimal 1 10) (decimal 1 10) 42 = Returned ds
    /\ exists width : nat,
         Forall (fun row => length row = width /\ Forall (fun v => 0 <= v <= 53) row)
                (ds_Q_train ds ++ ds_Q_val ds ++ ds_Q_test ds)
         /\ Forall (fun row => length row = width
                      /\ exists (k : nat) (idx : list Z),
                           row = replicate k [0] ++ map (fun v => [v]) idx
                           /\ Forall (fun v => 1 <= v <= 53) idx)
                   (ds_A_train ds ++ ds_A_val ds ++ ds_A_test ds).
Proof.
  destruct (@get_amazon_dataset ascii_tables fussy_detector in_place four_rows
              (decimal 1 10) (decimal 1 10) 42) as [ds|e] eqn:E.
  - exists ds. split; [reflexivity|].
    apply (@get_amazon_dataset_shape ascii_tables fussy_detector in_place
             four_rows (decimal 1 10) (decimal 1 10) 42 ds E).
  - vm_compute in E. discriminate E.
Defined.

(** ** The detector inside the pipeline *)

Lemma organize_returns `{Unicode} `{Detector} (df : list Message) (alphabet : str) :
  exists exchanges, organize_QA_dataframe df alphabet = Returned exchanges.
Proof.
  unfold organize_QA_dataframe.
  rewrite !comprehension_check_language. cbn [mbind outcome_bind].
  eexists. reflexivity.
Qed.

Lemma int_of_float_raises (x : spec_float) (e : exn) :
  int_of_float x = Raised e -> e = ValueError \/ e = OverflowError.
Proof. destruct x; simpl; intros [= <-]; auto. Qed.

Lemma organize_fail_open `{Unicode} (D : Detector) (df : list Message) (alphabet : str) :
  @organize_QA_dataframe _ D df alphabet
  = @organize_QA_dataframe _ (fail_open D) df alphabet.
Proof.
  unfold organize_QA_dataframe.
  rewrite !(@comprehension_check_language D),
          !(@comprehension_check_language (fail_open D)).
  cbn [mbind outcome_bind].
  assert (Htag : forall tweet : str,
            match @detect (fail_open D) (langdetect_input tweet) with
            | Returned tag => tag
            | Raised _ => py "en"
            end
            = match @detect D (langdetect_input tweet) with
              | Returned tag => tag
              | Raised _ => py "en"
              end).
  { intros tweet. cbn [detect fail_open].
    destruct (@detect D (langdetect_input tweet)); reflexivity. }
  rewrite !(map_ext _ _ Htag). reflexivity.
Qed.

(** X20: a failure of the language detector never comes out of
    [get_amazon_dataset] and never changes what it does: with any
    detector, the pipeline returns or raises exactly what it returns or
    raises with the detector that answers 'en' wherever the given one
    raises; in particular it never raises [LangDetectException]. *)
Theorem detector_failure_stays_inside `{Unicode} `{Shuffler} (D : Detector)
    (df : list Message) (val_size test_size : spec_float) (seed : Z) :
  @get_amazon_dataset _ D _ df val_size test_size seed
    = @get_amazon_dataset _ (fail_open D) _ df val_size test_size seed
  /\ @get_amazon_dataset _ D _ df val_size test_size seed <> Raised LangDetectException.
Proof.
  split.
  - unfold get_amazon_dataset. rewrite (organize_fail_open D). reflexivity.
  - destruct (@organize_returns _ D df generate_alphabet) as [ex Hex].
    unfold get_amazon_dataset. rewrite Hex. cbn [mbind outcome_bind].
    destruct ex as [|r0 ex0]; [discriminate|].
    rewrite (vectorize_dataset_returns (r0 :: ex0)) by discriminate.
    cbn [mbind outcome_bind fst snd].
    unfold train_test_val_split, sklearn_shuffle.
    rewrite !length_map, Nat.eqb_refl. cbn [mbind outcome_bind fst snd].
    destruct (train_val_cutoff _ _ _) as [a|e] eqn:Ha.
    + cbn [mbind outcome_bind].
      destruct (val_test_cutoff _ _) as [b|e] eqn:Hb; [discriminate|].
      apply int_of_float_raises in Hb as [-> | ->]; discriminate.
    + apply int_of_float_raises in Ha as [-> | ->]; discriminate.
Qed.
